(** * Movie records: a shallow embedding of [movie-manipulation.js] and
    [movie-validation.js]

    The two modules are ES modules (they use [export]), so their code runs in
    strict mode.  They read and mutate caller-owned objects in place, log to
    the console and return either their argument or a freshly allocated
    array.  The embedding therefore threads an explicit store (a heap of
    objects addressed by references, so that aliasing is visible) and the
    console through a small state-and-exception monad.  An evaluation ends
    normally, with a thrown exception, or by leaving the modelled fragment
    (for instance by calling a function supplied by the caller).

    Scope of the object model.  A heap object has own data properties
    (integer-indexed elements, possibly with holes, and string-named
    properties in creation order), a class (ordinary, array, callable), a
    prototype (the pristine built-in one, [null], or another heap object),
    an extensibility flag, and for each own property the attributes
    writable and configurable.  This covers what object and array literals,
    [JSON.parse], property assignment, [Object.create],
    [Object.preventExtensions], [Object.seal], [Object.freeze] and
    [Object.defineProperty] with a data descriptor produce.  In strict code
    an assignment that [[Set]] refuses, a [delete] of a non-configurable
    property and a [push] onto an array that cannot grow raise a
    [TypeError].  Not represented: accessor properties (getters and
    setters, which run caller code), non-enumerable own properties, proxies,
    symbol-keyed properties, changes to the built-in prototypes, and the
    2^32-1 bound on array lengths.  Numbers are IEEE 754 binary64 values. *)

From Stdlib Require Import Floats.PrimFloat Numbers.Cyclic.Int63.Uint63.
From Stdlib Require Import ZArith DecimalString DecimalN.
From stdpp Require Import gmap strings list.

Open Scope string_scope.
Open Scope list_scope.

(** ** Values and heap objects *)

Definition loc := nat.

Inductive value : Type :=
  | VUndefined
  | VNull
  | VBool (b : bool)
  | VNum (x : float)
  | VStr (s : string)
  | VBigInt (z : Z)
  | VSymbol (id : nat)
  | VRef (l : loc).

Inductive oclass : Type := COrdinary | CArray | CFunction.

(** The prototype of a heap object: the pristine built-in prototype of its
    class ([Object.prototype], or [Array.prototype] / [Function.prototype],
    which inherit from it), [null] as after [Object.create(null)], or
    another heap object as after [Object.create(p)], [new C()] or
    [Object.setPrototypeOf]. *)
Inductive proto : Type := PBuiltin | PNull | PObject (l : loc).

Record obj : Type := MkObj {
  o_class : oclass;
  o_proto : proto;
  (** own properties whose key is an array index; [None] is a hole.  For an
      array the length of this list is its [length]. *)
  o_elems : list (option value);
  (** the other own string-keyed properties, in creation order *)
  o_named : list (string * value);
  (** [[Extensible]]: may own properties be added *)
  o_extensible : bool;
  (** keys of the own properties that are not writable.  For an array the
      key [length] may be listed.  A key the object does not have carries no
      meaning here and is dropped when a property of that name is created. *)
  o_readonly : list string;
  (** keys of the own properties that are not configurable, likewise *)
  o_fixed : list string
}.

(** A plain object, as a literal, [JSON.parse] or assignment builds it:
    extensible, every property writable and configurable. *)
Definition Obj (c : oclass) (p : proto) (es : list (option value))
    (ns : list (string * value)) : obj :=
  MkObj c p es ns true [] [].

Inductive channel : Type := ConsoleError | ConsoleLog.

Record state : Type := State {
  st_heap : gmap loc obj;
  st_console : list (channel * string)
}.

Inductive error : Type := TypeError.

(** How an evaluation ends: normally, by a thrown exception, or by leaving
    the fragment of JavaScript that is modelled here (a call into a
    caller-supplied function, a dangling reference, a property of a built-in
    prototype that is not represented). *)
Inductive completion (A : Type) : Type :=
  | Normal (a : A)
  | Throw (e : error)
  | Outside.
Arguments Normal {A} a.
Arguments Throw {A} e.
Arguments Outside {A}.

Definition M (A : Type) : Type := state → completion A * state.

Definition ret {A} (a : A) : M A := λ s, (Normal a, s).
Definition bind {A B} (m : M A) (f : A → M B) : M B := λ s,
  match m s with
  | (Normal a, s') => f a s'
  | (Throw e, s') => (Throw e, s')
  | (Outside, s') => (Outside, s')
  end.

Notation "'let*' x ':=' c 'in' k" := (bind c (λ x, k))
  (at level 10, x name, c at level 100, k at level 200).

Definition throw {A} (e : error) : M A := λ s, (Throw e, s).
Definition outside {A} : M A := λ s, (Outside, s).
Definition get_heap : M (gmap loc obj) := λ s, (Normal (st_heap s), s).
Definition console (c : channel) (msg : string) : M unit := λ s,
  (Normal (), State (st_heap s) (st_console s ++ [(c, msg)])).
Definition console_error : string → M unit := console ConsoleError.
Definition console_log : string → M unit := console ConsoleLog.
Definition store (l : loc) (o : obj) : M unit := λ s,
  (Normal (), State (<[l := o]> (st_heap s)) (st_console s)).
Definition alloc (o : obj) : M value := λ s,
  let l := fresh (dom (st_heap s)) in
  (Normal (VRef l), State (<[l := o]> (st_heap s)) (st_console s)).

(** Short-circuit [&&] in a condition position. *)
Definition and_also (a b : M bool) : M bool :=
  let* x := a in if x then b else ret false.
Infix "<&&>" := and_also (at level 41, right associativity).

(** ** Property keys *)

(** [ToString] of a non-negative integer, the key under which element [n]
    is stored. *)
Definition index_key (n : nat) : string :=
  NilEmpty.string_of_uint (N.to_uint (N.of_nat n)).

(** A key is an array index when it is the canonical decimal form of an
    integer below 2^32 - 1. *)
Definition array_index (k : string) : option nat :=
  match NilEmpty.uint_of_string k with
  | Some d =>
      let n := N.of_uint d in
      if (String.eqb (NilEmpty.string_of_uint (N.to_uint n)) k
          && (n <? 4294967295)%N)%bool
      then Some (N.to_nat n) else None
  | None => None
  end.

(** ** Operators on values *)

Definition num_of_nat (n : nat) : float :=
  PrimFloat.of_uint63 (Uint63.of_Z (Z.of_nat n)).

Definition is_callable (h : gmap loc obj) (v : value) : bool :=
  match v with
  | VRef l =>
      match h !! l with
      | Some o => match o_class o with CFunction => true | _ => false end
      | None => false
      end
  | _ => false
  end.

Definition is_array (h : gmap loc obj) (v : value) : bool :=
  match v with
  | VRef l =>
      match h !! l with
      | Some o => match o_class o with CArray => true | _ => false end
      | None => false
      end
  | _ => false
  end.

(** The [typeof] operator. *)
Definition typeof (h : gmap loc obj) (v : value) : string :=
  match v with
  | VUndefined => "undefined"
  | VNull => "object"
  | VBool _ => "boolean"
  | VNum _ => "number"
  | VStr _ => "string"
  | VBigInt _ => "bigint"
  | VSymbol _ => "symbol"
  | VRef _ => if is_callable h v then "function" else "object"
  end.

(** [ToBoolean], applied to the operands of [&&] and to conditions. *)
Definition to_boolean (v : value) : bool :=
  match v with
  | VUndefined | VNull => false
  | VBool b => b
  | VNum x => negb (PrimFloat.eqb x 0 || PrimFloat.is_nan x)
  | VStr s => negb (String.eqb s EmptyString)
  | VBigInt z => negb (Z.eqb z 0)
  | VSymbol _ | VRef _ => true
  end.

(** [===] *)
Definition strict_equal (a b : value) : bool :=
  match a, b with
  | VUndefined, VUndefined | VNull, VNull => true
  | VBool x, VBool y => Bool.eqb x y
  | VNum x, VNum y => PrimFloat.eqb x y
  | VStr x, VStr y => String.eqb x y
  | VBigInt x, VBigInt y => Z.eqb x y
  | VSymbol x, VSymbol y => Nat.eqb x y
  | VRef x, VRef y => Nat.eqb x y
  | _, _ => false
  end.

(** [SameValueZero], the comparison of [Array.prototype.includes]. *)
Definition same_value_zero (a b : value) : bool :=
  match a, b with
  | VNum x, VNum y =>
      PrimFloat.eqb x y || (PrimFloat.is_nan x && PrimFloat.is_nan y)
  | _, _ => strict_equal a b
  end.

(** The relational operators.  On operands that are not both numbers they
    convert through [ToPrimitive]; that conversion is not represented, and
    the sources only compare numbers. *)
Definition less_than (a b : value) : M bool :=
  match a, b with
  | VNum x, VNum y => ret (PrimFloat.ltb x y)
  | _, _ => outside
  end.
Definition less_equal (a b : value) : M bool :=
  match a, b with
  | VNum x, VNum y => ret (PrimFloat.leb x y)
  | _, _ => outside
  end.
Definition greater_equal (a b : value) : M bool :=
  match a, b with
  | VNum x, VNum y => ret (PrimFloat.leb y x)
  | _, _ => outside
  end.

(** [typeof v === tag] *)
Definition typeof_is (v : value) (tag : value) : M bool :=
  let* h := get_heap in ret (strict_equal (VStr (typeof h v)) tag).

(** ** Own properties *)

Fixpoint assoc_get (k : string) (ps : list (string * value)) : option value :=
  match ps with
  | [] => None
  | (k', v) :: ps' => if String.eqb k' k then Some v else assoc_get k ps'
  end.

(** Assignment keeps the position of an existing key and appends a new one. *)
Fixpoint assoc_set (k : string) (v : value) (ps : list (string * value))
  : list (string * value) :=
  match ps with
  | [] => [(k, v)]
  | (k', v') :: ps' =>
      if String.eqb k' k then (k', v) :: ps' else (k', v') :: assoc_set k v ps'
  end.

Fixpoint assoc_del (k : string) (ps : list (string * value))
  : list (string * value) :=
  match ps with
  | [] => []
  | (k', v') :: ps' =>
      if String.eqb k' k then assoc_del k ps' else (k', v') :: assoc_del k ps'
  end.

Definition has_key (k : string) (ks : list string) : bool :=
  existsb (String.eqb k) ks.

Fixpoint remove_key (k : string) (ks : list string) : list string :=
  match ks with
  | [] => []
  | k' :: ks' =>
      if String.eqb k' k then remove_key k ks' else k' :: remove_key k ks'
  end.

(** Own property [k] is not writable. *)
Definition is_readonly (k : string) (o : obj) : bool := has_key k (o_readonly o).

(** Own property [k] is not configurable. *)
Definition is_fixed (k : string) (o : obj) : bool := has_key k (o_fixed o).

(** The attribute list [ks] after an assignment to named property [k]: an
    existing property keeps its attributes, a new one starts writable and
    configurable. *)
Definition after_set (k : string) (o : obj) (ks : list string) : list string :=
  match assoc_get k (o_named o) with
  | Some _ => ks
  | None => remove_key k ks
  end.

(** The object after named property [k] has been created or updated. *)
Definition set_named (k : string) (v : value) (o : obj) : obj :=
  MkObj (o_class o) (o_proto o) (o_elems o) (assoc_set k v (o_named o))
        (o_extensible o)
        (after_set k o (o_readonly o)) (after_set k o (o_fixed o)).

(** The object after named property [k] has been removed, attributes
    included. *)
Definition del_named (k : string) (o : obj) : obj :=
  MkObj (o_class o) (o_proto o) (o_elems o) (assoc_del k (o_named o))
        (o_extensible o)
        (remove_key k (o_readonly o)) (remove_key k (o_fixed o)).

Definition is_array_class (c : oclass) : bool :=
  match c with CArray => true | _ => false end.

Definition is_array_obj (o : obj) : bool := is_array_class (o_class o).

(** [[GetOwnProperty]]: the value of own property [k], if there is one.  An
    array's [length] is an own property.  (The built-in own properties of
    callable objects are not represented; the sources never look them up.) *)
Definition obj_get_own (k : string) (o : obj) : option value :=
  match array_index k with
  | Some i => mjoin (o_elems o !! i)
  | None =>
      if is_array_obj o && String.eqb k "length"
      then Some (VNum (num_of_nat (length (o_elems o))))
      else assoc_get k (o_named o)
  end.

Definition obj_has_own (k : string) (o : obj) : bool :=
  match obj_get_own k o with Some _ => true | None => false end.

(** The array after one element has been created at index [length]. *)
Definition pushed (v : value) (o : obj) : obj :=
  let k := index_key (length (o_elems o)) in
  MkObj (o_class o) (o_proto o) (o_elems o ++ [Some v]) (o_named o)
        (o_extensible o)
        (remove_key k (o_readonly o)) (remove_key k (o_fixed o)).

Fixpoint elem_keys_from (i : nat) (es : list (option value)) : list string :=
  match es with
  | [] => []
  | Some _ :: es' => index_key i :: elem_keys_from (S i) es'
  | None :: es' => elem_keys_from (S i) es'
  end.

(** [[OwnPropertyKeys]] restricted to enumerable string keys, as [Object.keys]
    lists them: array indices in ascending order, then the other keys in
    creation order.  An array's [length] is not enumerable. *)
Definition own_keys (o : obj) : list string :=
  elem_keys_from 0 (o_elems o) ++ (o_named o).*1.

Definition array_from (vs : list value) : obj :=
  Obj CArray PBuiltin (Some <$> vs) [].

(** Own properties of a string primitive (through its wrapper object). *)
Definition string_get_own (k : string) (s : string) : option value :=
  match array_index k with
  | Some i => (λ c, VStr (String c EmptyString)) <$> String.get i s
  | None =>
      if String.eqb k "length" then Some (VNum (num_of_nat (String.length s)))
      else None
  end.

(** ** The prototype chain *)

(** What looking a key up along a prototype chain finds: a data property
    (with its writable attribute) of one of the objects, nothing before the
    built-in prototype of an object of class [c], nothing before [null], or
    a chain that cannot be followed (a dangling reference or a cycle, which
    no execution produces). *)
Inductive found : Type :=
  | FData (v : value) (writable : bool)
  | FBuiltin (c : oclass)
  | FNull
  | FBroken.

(** The lookup of [k] from prototype [p] of an object of class [c], following
    at most [fuel] user-defined prototypes. *)
Fixpoint proto_lookup (fuel : nat) (h : gmap loc obj) (k : string)
    (c : oclass) (p : proto) : found :=
  match p with
  | PNull => FNull
  | PBuiltin => FBuiltin c
  | PObject l =>
      match fuel with
      | 0 => FBroken
      | S fuel' =>
          match h !! l with
          | None => FBroken
          | Some o =>
              match obj_get_own k o with
              | Some v => FData v (negb (is_readonly k o))
              | None => proto_lookup fuel' h k (o_class o) (o_proto o)
              end
          end
      end
  end.

(** A chain without a cycle visits each object of the heap at most once, so
    the number of objects is fuel enough. *)
Definition inherited (h : gmap loc obj) (k : string) (o : obj) : found :=
  proto_lookup (size h) h k (o_class o) (o_proto o).

(** ** Property access, assignment, deletion and method calls *)

(** What a property reference resolves to: a value held by an object, or
    one of the built-in methods the sources invoke. *)
Inductive resolved : Type :=
  | RValue (v : value)
  | RHasOwnProperty
  | RPush
  | RIncludes.

(** The property names the sources read or write as data.  None of them is
    defined by a built-in prototype. *)
Definition data_names : list string :=
  ["cast"; "title"; "year"; "director"; "rating"; "genre"].

(** Looking [k] up in the pristine built-in prototype chain of an array
    ([arr = true]) or of any other value.  [hasOwnProperty] is inherited from
    [Object.prototype] by all of them, [push] and [includes] are methods of
    [Array.prototype] only; the other built-in names are not represented
    ([None]). *)
Definition builtin_property (arr : bool) (k : string) : option resolved :=
  if String.eqb k "hasOwnProperty" then Some RHasOwnProperty
  else if String.eqb k "push" then Some (if arr then RPush else RValue VUndefined)
  else if String.eqb k "includes" then (if arr then Some RIncludes else None)
  else if has_key k data_names then Some (RValue VUndefined)
  else None.

Definition builtin_lookup (arr : bool) (k : string) : M resolved :=
  match builtin_property arr k with
  | Some r => ret r
  | None => outside
  end.

(** [[Get]] on an object, as a reference: own property first, then the
    prototype chain, then the built-in prototype the chain ends in. *)
Definition resolve (h : gmap loc obj) (k : string) (o : obj) : option resolved :=
  match obj_get_own k o with
  | Some v => Some (RValue v)
  | None =>
      match inherited h k o with
      | FData v _ => Some (RValue v)
      | FNull => Some (RValue VUndefined)
      | FBuiltin c => builtin_property (is_array_class c) k
      | FBroken => None
      end
  end.

(** [base.k] as a reference. *)
Definition get_prop (base : value) (k : string) : M resolved :=
  match base with
  | VUndefined | VNull => throw TypeError
  | VRef l =>
      let* h := get_heap in
      match h !! l with
      | None => outside
      | Some o =>
          match resolve h k o with
          | Some r => ret r
          | None => outside
          end
      end
  | VStr s =>
      match string_get_own k s with
      | Some v => ret (RValue v)
      | None => builtin_lookup false k
      end
  | _ => builtin_lookup false k
  end.

(** [base.k] / [base[k]] as a value. *)
Definition get (base : value) (k : string) : M value :=
  let* r := get_prop base k in
  match r with
  | RValue v => ret v
  | _ => outside
  end.

Inductive verdict : Type := Accept | Refuse | Unknown.

(** [[Set]] of data property [k] on the object [o] itself, for a key that no
    built-in prototype defines.  An own property is updated when it is
    writable.  Otherwise the chain decides: a read-only inherited property
    refuses the assignment, and creating the own property needs an
    extensible object. *)
Definition may_assign (h : gmap loc obj) (k : string) (o : obj) : verdict :=
  match obj_get_own k o with
  | Some _ => if is_readonly k o then Refuse else Accept
  | None =>
      match inherited h k o with
      | FBroken => Unknown
      | FData _ false => Refuse
      | FData _ true | FNull | FBuiltin _ =>
          if o_extensible o then Accept else Refuse
      end
  end.

(** [base.k = v] in strict code, for the keys the sources assign to.  On an
    object the own property is created or updated when [[Set]] accepts, and
    a refusal is a [TypeError].  On a primitive the assignment has no object
    to write to, which strict mode turns into a [TypeError] as well. *)
Definition put (base : value) (k : string) (v : value) : M unit :=
  if negb (has_key k data_names) then outside else
  match base with
  | VRef l =>
      let* h := get_heap in
      match h !! l with
      | None => outside
      | Some o =>
          match may_assign h k o with
          | Accept => store l (set_named k v o)
          | Refuse => throw TypeError
          | Unknown => outside
          end
      end
  | _ => throw TypeError
  end.

(** [delete base.k] in strict code, for an object [base] and the keys the
    sources delete.  A property that is not there is not an error; a
    property that is not configurable is a [TypeError]. *)
Definition delete_prop (base : value) (k : string) : M unit :=
  if negb (has_key k data_names) then outside else
  match base with
  | VRef l =>
      let* h := get_heap in
      match h !! l with
      | None => outside
      | Some o =>
          match obj_get_own k o with
          | None => ret ()
          | Some _ =>
              if is_fixed k o then throw TypeError
              else store l (del_named k o)
          end
      end
  | VUndefined | VNull => throw TypeError
  | _ => outside
  end.

(** The built-in [Object.prototype.hasOwnProperty] applied to [this]. *)
Definition has_own_property (this : value) (k : string) : M bool :=
  match this with
  | VUndefined | VNull => throw TypeError
  | VRef l =>
      let* h := get_heap in
      match h !! l with
      | None => outside
      | Some o => ret (obj_has_own k o)
      end
  | VStr s => ret (match string_get_own k s with Some _ => true | None => false end)
  | _ => ret false
  end.

(** May the array [o] take one more element: [[Set]] at index [length]
    consults the prototype chain like any assignment, and the array must be
    extensible with a writable [length]. *)
Definition may_append (h : gmap loc obj) (o : obj) : verdict :=
  match inherited h (index_key (length (o_elems o))) o with
  | FBroken => Unknown
  | FData _ false => Refuse
  | FData _ true | FNull | FBuiltin _ =>
      if o_extensible o && negb (is_readonly "length" o) then Accept
      else Refuse
  end.

(** The built-in [Array.prototype.push] applied to an array with one
    argument: the element is stored at index [length] and the new length is
    returned; when the array cannot grow the method raises a [TypeError]. *)
Definition array_push (this : value) (v : value) : M value :=
  match this with
  | VRef l =>
      let* h := get_heap in
      match h !! l with
      | Some o =>
          if is_array_obj o then
            match may_append h o with
            | Accept =>
                let* _ := store l (pushed v o) in
                ret (VNum (num_of_nat (S (length (o_elems o)))))
            | Refuse => throw TypeError
            | Unknown => outside
            end
          else outside
      | None => outside
      end
  | _ => outside
  end.

(** Reading the elements of an array in index order; a hole reads as
    [undefined]. *)
Definition elements (o : obj) : list value :=
  default VUndefined <$> o_elems o.

(** Reading a hole goes through the prototype chain.  The built-in
    prototypes hold no elements; an array with holes and a user-defined
    prototype is not represented. *)
Definition elements_own (o : obj) : bool :=
  match o_proto o with
  | PObject _ => forallb (λ e, match e with Some _ => true | None => false end)
                         (o_elems o)
  | _ => true
  end.

(** The built-in [Array.prototype.includes] applied to an array. *)
Definition array_includes (this : value) (v : value) : M value :=
  match this with
  | VRef l =>
      let* h := get_heap in
      match h !! l with
      | Some o =>
          if is_array_obj o && elements_own o
          then ret (VBool (existsb (λ e, same_value_zero e v) (elements o)))
          else outside
      | None => outside
      end
  | _ => outside
  end.

(** [base.name(arg)]: resolve the method on [base], then call it with
    [this = base].  A value that is not callable raises a [TypeError]; a
    caller-supplied function is outside the model. *)
Definition call_method (base : value) (name : string) (arg : value) : M value :=
  let* f := get_prop base name in
  match f with
  | RHasOwnProperty =>
      match arg with
      | VStr k => let* b := has_own_property base k in ret (VBool b)
      | _ => outside
      end
  | RPush => array_push base arg
  | RIncludes => array_includes base arg
  | RValue v =>
      let* h := get_heap in
      if is_callable h v then outside else throw TypeError
  end.

(** [Array.isArray(v)] *)
Definition Array_isArray (v : value) : M bool :=
  let* h := get_heap in ret (is_array h v).

(** [[...arr]]: a new array holding the elements the array iterator of
    [arr] yields. *)
Definition spread (arr : value) : M value :=
  match arr with
  | VRef l =>
      let* h := get_heap in
      match h !! l with
      | Some o =>
          if is_array_obj o && elements_own o
          then alloc (array_from (elements o)) else outside
      | None => outside
      end
  | _ => outside
  end.

(** [Object.keys(v)] for an object [v]: a new array of its own enumerable
    string keys. *)
Definition Object_keys (v : value) : M value :=
  match v with
  | VRef l =>
      let* h := get_heap in
      match h !! l with
      | Some o => alloc (array_from (VStr <$> own_keys o))
      | None => outside
      end
  | VUndefined | VNull => throw TypeError
  | _ => outside
  end.

(** [Object.freeze(o)], [Object.seal(o)] and [Object.preventExtensions(o)]
    as they leave the object; the sources do not call them, their callers
    may. *)
Definition all_keys (o : obj) : list string :=
  own_keys o ++ (if is_array_obj o then ["length"] else []).

Definition frozen (o : obj) : obj :=
  MkObj (o_class o) (o_proto o) (o_elems o) (o_named o) false
        (all_keys o) (all_keys o).

Definition sealed (o : obj) : obj :=
  MkObj (o_class o) (o_proto o) (o_elems o) (o_named o) false
        (o_readonly o) (all_keys o).

Definition not_extensible (o : obj) : obj :=
  MkObj (o_class o) (o_proto o) (o_elems o) (o_named o) false
        (o_readonly o) (o_fixed o).

(** ** [movie-manipulation.js]

    The example section at the end of each source file is guarded by
    [SHOW_EXAMPLES = false] and never runs; it is not part of the embedding. *)

Module movie_manipulation.

Definition genre_names : list string :=
  ["Animation"; "Family"; "Action"; "Comedy"; "Drama"; "Sci-Fi"].

(** [const allowedGenres = ["Animation", ...];] evaluated when the module is
    loaded; the result is the value bound to [allowedGenres]. *)
Definition module_init : M value :=
  alloc (array_from (VStr <$> genre_names)).

Section functions.
(** The module-level binding, private to the module. *)
Variable allowedGenres : value.

Definition setMovieRating (movie rating : value) : M value :=
  let* ok := ret (to_boolean movie)
             <&&> typeof_is rating (VStr "number")
             <&&> greater_equal rating (VNum 0)
             <&&> less_equal rating (VNum 10) in
  let* _ := if ok then put movie "rating" rating
            else console_error "Invalid movie object or rating" in
  ret movie.

Definition addMovieGenre (movie genre : value) : M value :=
  let* ok := ret (to_boolean movie)
             <&&> typeof_is genre (VStr "string")
             <&&> (let* b := call_method allowedGenres "includes" genre in
                   ret (to_boolean b)) in
  let* _ := if ok then put movie "genre" genre
            else console_error "Invalid movie object or genre" in
  ret movie.

Definition removeDirectorProperty (movie : value) : M value :=
  let* ok := ret (to_boolean movie)
             <&&> (let* b := call_method movie "hasOwnProperty" (VStr "director") in
                   ret (to_boolean b)) in
  let* _ := if ok then delete_prop movie "director"
            else console_error
                   "Invalid movie object or director property does not exist" in
  ret movie.

Definition addCastMember (movie newMember : value) : M value :=
  let* ok := ret (to_boolean movie)
             <&&> (let* c := get movie "cast" in Array_isArray c)
             <&&> typeof_is newMember (VStr "string") in
  let* _ := if ok then
              let* c := get movie "cast" in
              let* _ := call_method c "push" newMember in
              ret ()
            else console_error "Invalid movie object, cast array, or new member" in
  ret movie.

Definition getAllowedGenres : M value :=
  spread allowedGenres.
End functions.

End movie_manipulation.

(** ** [movie-validation.js] *)

Module movie_validation.

Definition isObject (v : value) : M bool :=
  ret (negb (strict_equal v VNull)) <&&> typeof_is v (VStr "object").

(** [prop] is the property key, a string (the documented parameter type). *)
Definition hasPropertyOfType (o : value) (prop : string) (expectedType : value)
  : M bool :=
  isObject o
  <&&> has_own_property o prop
  <&&> (let* v := get o prop in typeof_is v expectedType).

Definition getMovieTitle (movie : value) : M value :=
  let* ok := hasPropertyOfType movie "title" (VStr "string") in
  if negb ok then
    let* _ := console_log "getMovieTitle: Invalid movie object or title missing." in
    ret (VStr EmptyString)
  else get movie "title".

Definition getMovieYear (movie : value) : M value :=
  let* ok := hasPropertyOfType movie "year" (VStr "number") in
  if negb ok then
    let* _ := console_log "getMovieYear: Invalid movie object or year missing." in
    ret (VNum 0)
  else get movie "year".

Definition isMovieClassic (movie : value) : M value :=
  let* year := getMovieYear movie in
  if strict_equal year (VNum 0) then
    let* _ := console_log "isMovieClassic: Movie object invalid or missing year." in
    ret (VBool false)
  else
    let* b := less_than year (VNum 2000) in ret (VBool b).

Definition getMovieKeys (movie : value) : M value :=
  let* ok := isObject movie in
  if negb ok then
    let* _ := console_log "getMovieKeys: Provided input is not a valid object." in
    alloc (array_from [])
  else Object_keys movie.

Definition getMoviePropertiesCount (movie : value) : M value :=
  let* ok := isObject movie in
  if negb ok then
    let* _ := console_log
                "getMoviePropertiesCount: Provided input is not a valid object." in
    ret (VNum 0)
  else
    let* ks := getMovieKeys movie in get ks "length".

End movie_validation.

(** * Specification vocabulary *)

Import movie_manipulation movie_validation.

(** The state after logging one message. *)
Definition logged (c : channel) (msg : string) (s : state) : state :=
  State (st_heap s) (st_console s ++ [(c, msg)]).

(** The state after the object at [l] has been replaced by [o]. *)
Definition updated (l : loc) (o : obj) (s : state) : state :=
  State (<[l := o]> (st_heap s)) (st_console s).

(** A rating is valid when it is a number in the closed interval [0, 10]. *)
Definition valid_rating (v : value) : bool :=
  match v with
  | VNum x => PrimFloat.leb 0 x && PrimFloat.leb x 10
  | _ => false
  end.

(** A genre is allowed when it is a string equal to one of the six names. *)
Definition allowed_genre (v : value) : bool :=
  match v with
  | VStr g => existsb (λ name, String.eqb name g) genre_names
  | _ => false
  end.

Definition is_string (v : value) : bool :=
  match v with VStr _ => true | _ => false end.

Definition primitive (v : value) : Prop :=
  match v with VRef _ => False | _ => True end.

(** A reference is live when the heap holds an object for it.  Every
    reference a program can hold is live; the condition only rules out heaps
    that no execution produces. *)
Definition live (h : gmap loc obj) (v : value) : Prop :=
  match v with VRef l => is_Some (h !! l) | _ => True end.

(** The module invariant of [movie-manipulation.js]: the private binding
    [allowedGenres] refers to the array built when the module was loaded, and
    that array is as it was built. *)
Definition genres_intact (allowedGenres : value) (s : state) : Prop :=
  ∃ g, allowedGenres = VRef g ∧
       st_heap s !! g = Some (array_from (VStr <$> genre_names)).





(** A key that names an ordinary named property: not an array index, not
    [length], not [__proto__]. *)
Definition named_key (k : string) : Prop :=
  array_index k = None ∧ String.eqb k "length" = false ∧
  String.eqb k "__proto__" = false.

(** [v] is a non-null value whose [typeof] is ["object"]. *)
Definition is_object (h : gmap loc obj) (v : value) : bool :=
  match v with VRef _ => negb (is_callable h v) | _ => false end.

(** The value of own property [k] of the record [v], when [v] is a non-null
    object and has such a property. *)
Definition own_property (h : gmap loc obj) (v : value) (k : string)
  : option value :=
  match v with
  | VRef l =>
      match h !! l with
      | Some o => if is_object h v then obj_get_own k o else None
      | None => None
      end
  | _ => None
  end.

Definition is_number (v : value) : bool :=
  match v with VNum _ => true | _ => false end.

(** What [movie.cast] evaluates to, through the prototype chain, when the
    chain can be followed; [undefined] otherwise. *)
Definition cast_of (h : gmap loc obj) (movie : value) : value :=
  match movie with
  | VRef l =>
      match h !! l with
      | Some o =>
          match resolve h "cast" o with
          | Some (RValue v) => v
          | _ => VUndefined
          end
      | None => VUndefined
      end
  | _ => VUndefined
  end.

(** [movie] is a record whose [cast], own or inherited, is the array [oc]
    stored at [c]. *)
Definition cast_array (s : state) (movie : value) (c : loc) (oc : obj) : Prop :=
  ∃ l o, movie = VRef l ∧ st_heap s !! l = Some o ∧
         resolve (st_heap s) "cast" o = Some (RValue (VRef c)) ∧
         st_heap s !! c = Some oc ∧ is_array_obj oc = true.

(** The object's prototype is a built-in one or [null]: nothing is
    inherited from another heap object. *)
Definition no_user_proto (o : obj) : Prop :=
  match o_proto o with PObject _ => False | _ => True end.

(** A prototype chain that can be followed to its end: the objects it
    visits, in order. *)
Inductive chain (h : gmap loc obj) : proto → list loc → Prop :=
  | chain_builtin : chain h PBuiltin []
  | chain_null : chain h PNull []
  | chain_object l o ls :
      h !! l = Some o → chain h (o_proto o) ls → chain h (PObject l) (l :: ls).

(** The reference the next allocation returns. *)
Definition next_loc (s : state) : loc := fresh (dom (st_heap s) : gset loc).

Definition rating_msg : string := "Invalid movie object or rating".
Definition genre_msg : string := "Invalid movie object or genre".
Definition director_msg : string :=
  "Invalid movie object or director property does not exist".
Definition cast_msg : string := "Invalid movie object, cast array, or new member".
Definition title_msg : string :=
  "getMovieTitle: Invalid movie object or title missing.".
Definition year_msg : string :=
  "getMovieYear: Invalid movie object or year missing.".
Definition classic_msg : string :=
  "isMovieClassic: Movie object invalid or missing year.".
Definition keys_msg : string :=
  "getMovieKeys: Provided input is not a valid object.".
Definition count_msg : string :=
  "getMoviePropertiesCount: Provided input is not a valid object.".

(** What a call that assigns [v] to property [k] of the object [o] at [l]
    ends in: the object is returned with the property stored, or the
    assignment is refused. *)
Definition stored (l : loc) (o : obj) (k : string) (v : value) (s : state)
  : completion value * state :=
  match may_assign (st_heap s) k o with
  | Accept => (Normal (VRef l), updated l (set_named k v o) s)
  | Refuse => (Throw TypeError, s)
  | Unknown => (Outside, s)
  end.

(** What [removeDirectorProperty] ends in on the object [o] at [l], once
    the own-property test has been made: without an own [director] it logs,
    a configurable [director] is removed, and removing one that is not
    configurable is refused. *)
Definition removed (l : loc) (o : obj) (s : state) : completion value * state :=
  if obj_has_own "director" o then
    if is_fixed "director" o then (Throw TypeError, s)
    else (Normal (VRef l), updated l (del_named "director" o) s)
  else (Normal (VRef l), logged ConsoleError director_msg s).


(** ** Sample states

    The record of the sources' example section, with the module-level array
    at reference 0, the cast at 1 and the movie at 2. *)

Definition toy_cast : obj :=
  array_from [VStr "Tom Hanks"; VStr "Tim Allen"; VStr "Don Rickles"].

Definition toy_story : obj :=
  Obj COrdinary PBuiltin []
    [("id", VNum 1); ("title", VStr "Toy Story");
     ("director", VStr "John Lasseter"); ("year", VNum 1995);
     ("genre", VStr "Animation"); ("rating", VNum 8.5); ("cast", VRef 1)].

Definition toy_state : state :=
  State (<[2 := toy_story]>
           (<[1 := toy_cast]> {[0 := array_from (VStr <$> genre_names)]}))
        [].

(** The same record after [Object.freeze(movie)], and the same cast after
    [Object.freeze(movie.cast)]. *)
Definition frozen_story_state : state :=
  State (<[2 := frozen toy_story]> (st_heap toy_state)) [].


(** A record whose own data shadow the inherited [hasOwnProperty], as
    [JSON.parse] yields for [{"director": "X", "hasOwnProperty": 1}]. *)
Definition shadowing_record : obj :=
  Obj COrdinary PBuiltin [] [("director", VStr "X"); ("hasOwnProperty", VNum 1)].

Definition shadowing_state : state := State {[0 := shadowing_record]} [].








(** A record made by [Object.create(movie)]: it has no own properties and
    inherits them all, the cast included, from [toy_story]. *)
Definition heir : obj := Obj COrdinary (PObject 2) [] [].

Definition heir_state : state :=
  State (<[3 := heir]> (st_heap toy_state)) [].

(** ** Vocabulary for how the functions compose *)

(** What the four mutation functions can do to an object: store a valid
    rating, store an allowed genre, remove [director], or append a string to
    an array. *)
Inductive mutated : obj → obj → Prop :=
  | mutated_rating o v :
      valid_rating v = true → mutated o (set_named "rating" v o)
  | mutated_genre o v :
      allowed_genre v = true → mutated o (set_named "genre" v o)
  | mutated_director o :
      mutated o (del_named "director" o)
  | mutated_cast o v :
      is_array_obj o = true → is_string v = true → mutated o (pushed v o).

(** Between [s] and [s'] the heap is the same, or one object was replaced by
    a mutated version of itself. *)
Definition heap_step (s s' : state) : Prop :=
  st_heap s' = st_heap s ∨
  ∃ l o o', st_heap s !! l = Some o ∧ mutated o o' ∧
            st_heap s' = <[l := o']> (st_heap s).

(** The console of [s'] is that of [s] followed by [n] entries, all on
    channel [c]. *)
Definition console_grew (c : channel) (n : nat) (s s' : state) : Prop :=
  ∃ msgs, length msgs = n ∧
          st_console s' = st_console s ++ ((λ m, (c, m)) <$> msgs).

(** Every object of [s] is still in [s'] and is the same there. *)
Definition objects_kept (s s' : state) : Prop :=
  ∀ l o, st_heap s !! l = Some o → st_heap s' !! l = Some o.

(** * Facts about keys and own properties *)

Example index_key_12 : index_key 12 = "12".
Proof. reflexivity. Qed.

Example array_index_12 : array_index "12" = Some 12.
Proof. reflexivity. Qed.

Example array_index_leading_zero : array_index "012" = None.
Proof. reflexivity. Qed.

Example array_index_rating : array_index "rating" = None.
Proof. reflexivity. Qed.

Lemma array_index_index_key (i : nat) :
  (N.of_nat i < 4294967295)%N → array_index (index_key i) = Some i.
Proof.
  intros Hi. unfold array_index, index_key.
  rewrite NilEmpty.usu, DecimalN.Unsigned.of_to, String.eqb_refl.
  apply N.ltb_lt in Hi. rewrite Hi. simpl. by rewrite Nat2N.id.
Qed.

Lemma named_rating : named_key "rating".
Proof. by compute. Qed.

Lemma named_genre : named_key "genre".
Proof. by compute. Qed.

Lemma named_director : named_key "director".
Proof. by compute. Qed.




Lemma assoc_get_set_eq k v ps : assoc_get k (assoc_set k v ps) = Some v.
Proof.
  induction ps as [|[k' v'] ps IH]; simpl.
  - by rewrite String.eqb_refl.
  - destruct (String.eqb k' k) eqn:E; simpl; by rewrite E.
Qed.

Lemma assoc_get_set_ne k k' v ps :
  k ≠ k' → assoc_get k' (assoc_set k v ps) = assoc_get k' ps.
Proof.
  intros Hne. induction ps as [|[k0 v0] ps IH]; simpl.
  - destruct (String.eqb_spec k k'); done.
  - destruct (String.eqb_spec k0 k) as [->|]; simpl.
    + destruct (String.eqb_spec k k'); done.
    + by rewrite IH.
Qed.

Lemma assoc_get_del_eq k ps : assoc_get k (assoc_del k ps) = None.
Proof.
  induction ps as [|[k' v'] ps IH]; simpl; [done|].
  destruct (String.eqb k' k) eqn:E; simpl; [done|]. by rewrite E.
Qed.

Lemma assoc_get_del_ne k k' ps :
  k ≠ k' → assoc_get k' (assoc_del k ps) = assoc_get k' ps.
Proof.
  intros Hne. induction ps as [|[k0 v0] ps IH]; simpl; [done|].
  destruct (String.eqb_spec k0 k) as [->|]; simpl.
  - rewrite IH. destruct (String.eqb_spec k k'); done.
  - by rewrite IH.
Qed.



(** Assigning to a key that is already present keeps the key list. *)
Lemma assoc_set_keys_present k v ps :
  is_Some (assoc_get k ps) → (assoc_set k v ps).*1 = ps.*1.
Proof.
  induction ps as [|[k' v'] ps IH]; simpl.
  - by intros [? ?].
  - destruct (String.eqb k' k) eqn:E; simpl; [done|].
    intros H. f_equal. by apply IH.
Qed.

(** Assigning to a new key appends it. *)
Lemma assoc_set_keys_absent k v ps :
  assoc_get k ps = None → (assoc_set k v ps).*1 = ps.*1 ++ [k].
Proof.
  induction ps as [|[k' v'] ps IH]; simpl; [done|].
  destruct (String.eqb k' k) eqn:E; simpl; [done|].
  intros H. f_equal. by apply IH.
Qed.

Lemma obj_get_own_named k o :
  named_key k → obj_get_own k o = assoc_get k (o_named o).
Proof.
  intros (Hi & Hl & _). unfold obj_get_own. by rewrite Hi, Hl, andb_false_r.
Qed.

Lemma has_key_remove_key_eq k ks : has_key k (remove_key k ks) = false.
Proof.
  induction ks as [|k' ks IH]; [done|]. simpl.
  destruct (String.eqb_spec k' k) as [->|Hne]; [done|]. simpl.
  destruct (String.eqb_spec k k'); [congruence|done].
Qed.

Lemma has_key_remove_key_ne k k' ks :
  k ≠ k' → has_key k' (remove_key k ks) = has_key k' ks.
Proof.
  intros Hne. induction ks as [|k0 ks IH]; [done|]. simpl.
  destruct (String.eqb_spec k0 k) as [->|Hk0]; simpl.
  - destruct (String.eqb_spec k' k); [congruence|done].
  - by rewrite IH.
Qed.


Lemma remove_key_comm k1 k2 ks :
  remove_key k1 (remove_key k2 ks) = remove_key k2 (remove_key k1 ks).
Proof.
  induction ks as [|k' ks IH]; [done|]. simpl.
  destruct (String.eqb k' k2) eqn:E2; destruct (String.eqb k' k1) eqn:E1;
    simpl; rewrite ?E1, ?E2; by rewrite ?IH.
Qed.

Lemma remove_key_absent k ks : has_key k ks = false → remove_key k ks = ks.
Proof.
  induction ks as [|k' ks IH]; [done|]. simpl.
  destruct (String.eqb_spec k k') as [->|Hne]; [done|]. simpl. intros H.
  destruct (String.eqb_spec k' k); [congruence|]. by rewrite IH.
Qed.


Lemma has_key_after_set_ne k k' o ks :
  k ≠ k' → has_key k' (after_set k o ks) = has_key k' ks.
Proof.
  intros Hne. unfold after_set. destruct (assoc_get k (o_named o)); [done|].
  by apply has_key_remove_key_ne.
Qed.

Lemma obj_get_own_set_named k v o :
  named_key k → obj_get_own k (set_named k v o) = Some v.
Proof.
  intros Hk. rewrite (obj_get_own_named _ _ Hk). apply assoc_get_set_eq.
Qed.

Lemma obj_has_own_del_named k o :
  named_key k → obj_has_own k (del_named k o) = false.
Proof.
  intros Hk. unfold obj_has_own. rewrite (obj_get_own_named _ _ Hk).
  simpl. by rewrite assoc_get_del_eq.
Qed.

Lemma own_keys_set_named_present k v o :
  named_key k → is_Some (obj_get_own k o) →
  own_keys (set_named k v o) = own_keys o.
Proof.
  intros Hk. rewrite (obj_get_own_named _ _ Hk). intros H.
  unfold own_keys. simpl. by rewrite assoc_set_keys_present.
Qed.




(** An assignment that [[Set]] accepts leaves the property writable. *)
Lemma is_readonly_set_named k v o :
  named_key k → is_readonly k o = false ∨ obj_get_own k o = None →
  is_readonly k (set_named k v o) = false.
Proof.
  intros Hk. rewrite (obj_get_own_named _ _ Hk).
  unfold is_readonly, set_named, after_set. simpl.
  intros [Hw|Hnone].
  - destruct (assoc_get k (o_named o)); [done|].
    apply has_key_remove_key_eq.
  - rewrite Hnone. apply has_key_remove_key_eq.
Qed.



Lemma elements_array_from vs : elements (array_from vs) = vs.
Proof.
  unfold elements, array_from. simpl. rewrite <- list_fmap_compose.
  by rewrite list_fmap_id.
Qed.

Lemma includes_names names g :
  existsb (λ e, same_value_zero e (VStr g))
          (elements (array_from (VStr <$> names)))
  = existsb (λ n, String.eqb n g) names.
Proof.
  rewrite elements_array_from.
  induction names as [|n names IH]; [done|].
  rewrite fmap_cons. simpl existsb. by rewrite IH.
Qed.

Lemma typeof_string h x :
  strict_equal (VStr (typeof h x)) (VStr "string") = is_string x.
Proof.
  destruct x as [| |b|y|str|z|id|l]; try reflexivity.
  simpl. by destruct (h !! l) as [[[] ? ? ? ? ? ?]|].
Qed.

Lemma typeof_number h x :
  strict_equal (VStr (typeof h x)) (VStr "number") = is_number x.
Proof.
  destruct x as [| |b|y|str|z|id|l]; try reflexivity.
  simpl. by destruct (h !! l) as [[[] ? ? ? ? ? ?]|].
Qed.

Lemma strict_equal_typeof h x tag :
  strict_equal (VStr (typeof h x)) tag = true ↔ tag = VStr (typeof h x).
Proof.
  destruct tag as [| |b|y|str|z|id|l]; simpl; try (split; [done|intros [=]]).
  rewrite String.eqb_eq. split; [by intros ->|by intros [= ->]].
Qed.

Lemma valid_rating_spec v :
  valid_rating v = true ↔
  ∃ x, v = VNum x ∧ PrimFloat.leb 0 x = true ∧ PrimFloat.leb x 10 = true.
Proof.
  destruct v as [| |b|y|str|z|id|l]; simpl;
    try (split; [done|by intros (? & [=] & _)]).
  rewrite andb_true_iff. split; [eauto|]. by intros (? & [= <-] & ?).
Qed.

Lemma allowed_genre_spec v :
  allowed_genre v = true ↔ ∃ g, v = VStr g ∧ g ∈ genre_names.
Proof.
  destruct v as [| |b|y|str|z|id|l]; unfold allowed_genre;
    try (split; [done|by intros (? & [=] & _)]).
  rewrite existsb_exists. split.
  - intros (n & Hin & Heq). apply String.eqb_eq in Heq as ->.
    exists str. split; [done|]. by apply list_elem_of_In.
  - intros (g & [= <-] & Hin). exists str. split; [by apply list_elem_of_In|].
    apply String.eqb_refl.
Qed.

Lemma is_object_spec h v :
  is_object h v = true ↔
  ∃ l, v = VRef l ∧ ∀ o, h !! l = Some o → o_class o ≠ CFunction.
Proof.
  destruct v as [| |b|y|str|z|id|l]; simpl;
    try (split; [done|by intros (? & [=] & _)]).
  split.
  - intros H. exists l. split; [done|]. intros o Ho. rewrite Ho in H.
    by destruct (o_class o).
  - intros (l' & [= <-] & H). destruct (h !! l) as [o|]; [|done].
    specialize (H o eq_refl). by destruct (o_class o).
Qed.

Lemma own_property_spec h v k x :
  own_property h v k = Some x ↔
  ∃ l o, v = VRef l ∧ h !! l = Some o ∧ o_class o ≠ CFunction ∧
         obj_get_own k o = Some x.
Proof.
  unfold own_property.
  destruct v as [| |b|y|str|z|id|l];
    try (split; [done|by intros (? & ? & [=] & _)]).
  destruct (h !! l) as [o|] eqn:Hl.
  - simpl. rewrite Hl. split.
    + destruct (o_class o) eqn:Hc; simpl; try done; intros H; exists l, o;
        by rewrite Hc.
    + intros (l' & o' & [= <-] & Ho' & Hc & Hown).
      rewrite Hl in Ho'. injection Ho' as <-. by destruct (o_class o).
  - split; [done|]. intros (l' & o' & [= <-] & Ho' & _). congruence.
Qed.

Lemma next_loc_fresh s : st_heap s !! next_loc s = None.
Proof. apply not_elem_of_dom. unfold next_loc. apply is_fresh. Qed.

(** * Facts about the prototype chain *)

Lemma proto_lookup_builtin fuel h k c :
  proto_lookup fuel h k c PBuiltin = FBuiltin c.
Proof. by destruct fuel. Qed.

Lemma proto_lookup_null fuel h k c : proto_lookup fuel h k c PNull = FNull.
Proof. by destruct fuel. Qed.

Lemma inherited_builtin h k o :
  o_proto o = PBuiltin → inherited h k o = FBuiltin (o_class o).
Proof. intros Hp. unfold inherited. rewrite Hp. apply proto_lookup_builtin. Qed.

Lemma inherited_null h k o : o_proto o = PNull → inherited h k o = FNull.
Proof. intros Hp. unfold inherited. rewrite Hp. apply proto_lookup_null. Qed.

(** More fuel and more objects do not change a lookup that succeeded. *)
Lemma proto_lookup_mono fuel fuel' h h' k c p :
  proto_lookup fuel h k c p ≠ FBroken → (fuel ≤ fuel')%nat → h ⊆ h' →
  proto_lookup fuel' h' k c p = proto_lookup fuel h k c p.
Proof.
  intros Hok Hle Hsub. revert fuel' c p Hok Hle.
  induction fuel as [|fuel IH]; intros fuel' c p Hok Hle.
  - destruct p; simpl in *; try done; by destruct fuel'.
  - destruct fuel' as [|fuel']; [lia|].
    destruct p as [| |l]; simpl in *; try done.
    destruct (h !! l) as [o|] eqn:Hl; [|done].
    rewrite (lookup_weaken _ _ _ _ Hl Hsub).
    destruct (obj_get_own k o); [done|]. apply IH; [done|lia].
Qed.

(** Fuel adequacy: a chain that can be followed and never visits an object
    twice is looked up to its end. *)
Lemma proto_lookup_chain fuel h k c p ls :
  chain h p ls → (length ls ≤ fuel)%nat → proto_lookup fuel h k c p ≠ FBroken.
Proof.
  intros Hchain. revert fuel c.
  induction Hchain as [| |l o ls Hl Hchain IH]; intros fuel c Hlen.
  - by rewrite proto_lookup_builtin.
  - by rewrite proto_lookup_null.
  - destruct fuel as [|fuel]; simpl in *; [lia|]. rewrite Hl.
    destruct (obj_get_own k o); [done|]. apply IH. lia.
Qed.

Lemma chain_in_heap h p ls l : chain h p ls → l ∈ ls → is_Some (h !! l).
Proof.
  induction 1 as [| |l' o ls Hl Hchain IH]; [by intros ?%elem_of_nil..|].
  intros [->|Hin]%elem_of_cons; [by eexists|by apply IH].
Qed.

Lemma chain_length h p ls : chain h p ls → NoDup ls → (length ls ≤ size h)%nat.
Proof.
  intros Hchain Hnd.
  rewrite <- (size_dom (D := gset loc) h), <- (size_list_to_set (C := gset loc) ls Hnd).
  apply subseteq_size. intros l Hl%elem_of_list_to_set.
  apply elem_of_dom. by eapply chain_in_heap.
Qed.

Lemma inherited_chain h k o ls :
  chain h (o_proto o) ls → NoDup ls → inherited h k o ≠ FBroken.
Proof.
  intros Hchain Hnd. eapply proto_lookup_chain; [done|].
  by eapply chain_length.
Qed.

(** Replacing an object by one with the same class, prototype and property
    [k] does not change what a lookup of [k] finds. *)
Lemma proto_lookup_insert fuel h l o o' k c p :
  h !! l = Some o →
  o_class o' = o_class o → o_proto o' = o_proto o →
  obj_get_own k o' = obj_get_own k o → is_readonly k o' = is_readonly k o →
  proto_lookup fuel (<[l := o']> h) k c p = proto_lookup fuel h k c p.
Proof.
  intros Hl Hc Hp Hown Hro. revert c p.
  induction fuel as [|fuel IH]; intros c p; [by destruct p|].
  destruct p as [| |l0]; simpl; try done.
  destruct (decide (l0 = l)) as [->|Hne].
  - rewrite lookup_insert_eq, Hl, Hown, Hro, Hc, Hp.
    destruct (obj_get_own k o); [done|]. apply IH.
  - rewrite lookup_insert_ne by done.
    destruct (h !! l0) as [o0|]; [|done].
    destruct (obj_get_own k o0); [done|]. apply IH.
Qed.

Section replaced.
Context (h : gmap loc obj) (l : loc) (o o' : obj) (k : string).
Hypothesis Hl : h !! l = Some o.
Hypothesis Hc : o_class o' = o_class o.
Hypothesis Hp : o_proto o' = o_proto o.
Hypothesis Hown : obj_get_own k o' = obj_get_own k o.
Hypothesis Hro : is_readonly k o' = is_readonly k o.

Lemma inherited_insert o2 :
  inherited (<[l := o']> h) k o2 = inherited h k o2.
Proof using Hl Hc Hp Hown Hro.
  unfold inherited. rewrite map_size_insert_Some by done.
  by apply (proto_lookup_insert _ _ _ o).
Qed.


Lemma may_assign_insert o2 :
  may_assign (<[l := o']> h) k o2 = may_assign h k o2.
Proof using Hl Hc Hp Hown Hro.
  unfold may_assign. by rewrite inherited_insert.
Qed.


Lemma may_assign_replaced :
  o_extensible o' = o_extensible o →
  may_assign (<[l := o']> h) k o' = may_assign h k o.
Proof using Hl Hc Hp Hown Hro.
  intros He. rewrite may_assign_insert. unfold may_assign, inherited.
  by rewrite Hown, Hro, Hc, Hp, He.
Qed.
End replaced.

Lemma resolve_own h k o v :
  obj_get_own k o = Some v → resolve h k o = Some (RValue v).
Proof. intros Hown. unfold resolve. by rewrite Hown. Qed.

Lemma resolve_builtin h k o :
  obj_get_own k o = None → o_proto o = PBuiltin →
  resolve h k o = builtin_property (is_array_obj o) k.
Proof.
  intros Hown Hp. unfold resolve. by rewrite Hown, inherited_builtin.
Qed.

Lemma resolve_null h k o :
  obj_get_own k o = None → o_proto o = PNull →
  resolve h k o = Some (RValue VUndefined).
Proof.
  intros Hown Hp. unfold resolve. by rewrite Hown, inherited_null.
Qed.

(** An object added to the heap does not change a lookup that succeeded. *)
Lemma inherited_weaken h h' k o :
  h ⊆ h' → inherited h k o ≠ FBroken → inherited h' k o = inherited h k o.
Proof.
  intros Hsub Hok. unfold inherited in *.
  apply proto_lookup_mono; [done|by apply map_subseteq_size|done].
Qed.

Lemma may_assign_weaken h h' k o :
  h ⊆ h' → may_assign h k o ≠ Unknown → may_assign h' k o = may_assign h k o.
Proof.
  intros Hsub. unfold may_assign. destruct (obj_get_own k o); [done|].
  intros Hok. rewrite (inherited_weaken h h'); [done|done|].
  by destruct (inherited h k o) as [? []| | |].
Qed.

(** On an object without a user-defined prototype the verdict of [[Set]]
    depends on the object alone. *)
Lemma may_assign_no_user_proto h k o :
  no_user_proto o →
  may_assign h k o =
  match obj_get_own k o with
  | Some _ => if is_readonly k o then Refuse else Accept
  | None => if o_extensible o then Accept else Refuse
  end.
Proof.
  intros Hp. unfold may_assign. destruct (obj_get_own k o); [done|].
  unfold no_user_proto in Hp. destruct (o_proto o) eqn:Ho; [| |done].
  - by rewrite inherited_builtin.
  - by rewrite inherited_null.
Qed.


(** On a heap whose prototype chains can be followed and have no cycle,
    which is every heap an execution produces, the verdicts are decided. *)
Lemma may_assign_chain h k o ls :
  chain h (o_proto o) ls → NoDup ls → may_assign h k o ≠ Unknown.
Proof.
  intros Hchain Hnd. pose proof (inherited_chain h k o ls Hchain Hnd) as Hok.
  unfold may_assign. destruct (obj_get_own k o).
  - by destruct (is_readonly k o).
  - destruct (inherited h k o) as [? []|?| |]; try done;
      try by destruct (o_extensible o).
Qed.



Lemma may_append_insert h l o o' o2 :
  h !! l = Some o →
  o_class o' = o_class o → o_proto o' = o_proto o →
  (∀ k, array_index k ≠ None →
        obj_get_own k o' = obj_get_own k o ∧
        is_readonly k o' = is_readonly k o) →
  (N.of_nat (length (o_elems o2)) < 4294967295)%N →
  may_append (<[l := o']> h) o2 = may_append h o2.
Proof.
  intros Hl Hc Hp Hsame Hlen. unfold may_append.
  destruct (Hsame (index_key (length (o_elems o2)))) as [Hown Hro].
  { by rewrite array_index_index_key. }
  by rewrite (inherited_insert h l o o').
Qed.

(** * Evaluation of the primitives *)

Ltac unfold_monad :=
  unfold typeof_is, less_than, less_equal, greater_equal, Array_isArray,
    console_error, console_log, logged, updated, builtin_lookup in *;
  unfold and_also, console, store, get_heap, throw, outside in *;
  unfold bind, ret in *.

#[local] Arguments obj_get_own : simpl never.
#[local] Arguments obj_has_own : simpl never.
#[local] Arguments allowed_genre : simpl never.
#[local] Arguments own_property : simpl never.
#[local] Arguments resolve : simpl never.
#[local] Arguments inherited : simpl never.
#[local] Arguments may_assign : simpl never.
#[local] Arguments may_append : simpl never.
#[local] Arguments is_readonly : simpl never.
#[local] Arguments is_fixed : simpl never.

Lemma alloc_eval o s :
  alloc o s = (Normal (VRef (next_loc s)), updated (next_loc s) o s).
Proof. reflexivity. Qed.

Lemma put_ref s l o k v :
  st_heap s !! l = Some o → has_key k data_names = true →
  put (VRef l) k v s =
  match may_assign (st_heap s) k o with
  | Accept => (Normal (), updated l (set_named k v o) s)
  | Refuse => (Throw TypeError, s)
  | Unknown => (Outside, s)
  end.
Proof.
  intros Hl Hk. unfold put. rewrite Hk. cbn [negb]. unfold_monad.
  rewrite Hl. by destruct (may_assign _ _ _).
Qed.

Lemma put_dangling s l k v :
  st_heap s !! l = None → has_key k data_names = true →
  put (VRef l) k v s = (Outside, s).
Proof.
  intros Hl Hk. unfold put. rewrite Hk. cbn [negb]. unfold_monad.
  by rewrite Hl.
Qed.

Lemma put_primitive s base k v :
  primitive base → has_key k data_names = true →
  put base k v s = (Throw TypeError, s).
Proof. intros Hb Hk. unfold put. rewrite Hk. by destruct base. Qed.

Lemma resolve_includes_array_from h vs :
  resolve h "includes" (array_from vs) = Some RIncludes.
Proof. by rewrite resolve_builtin. Qed.

Lemma call_includes s g vs v :
  st_heap s !! g = Some (array_from vs) →
  call_method (VRef g) "includes" v s
  = (Normal (VBool (existsb (λ e, same_value_zero e v) vs)), s).
Proof.
  intros Hg. unfold call_method, get_prop, array_includes. unfold_monad.
  rewrite Hg, resolve_includes_array_from, Hg.
  change (is_array_obj (array_from vs) && elements_own (array_from vs))
    with true.
  cbv iota. f_equal. f_equal. f_equal.
  unfold elements, array_from. simpl. rewrite <- list_fmap_compose.
  by rewrite list_fmap_id.
Qed.

(** A reference resolves to a value held by an object, or to what the
    built-in prototypes define under its name. *)
Lemma resolve_cases h k o :
  resolve h k o = None ∨ (∃ v, resolve h k o = Some (RValue v)) ∨
  ∃ arr, resolve h k o = builtin_property arr k.
Proof.
  unfold resolve. destruct (obj_get_own k o); [eauto|].
  destruct (inherited h k o) as [v w|c| |]; eauto.
Qed.

(** Calling [includes] never changes the state. *)
Lemma call_includes_state base v s :
  (call_method base "includes" v s).2 = s.
Proof.
  unfold call_method, get_prop, array_includes. unfold_monad.
  destruct base as [| |b|y|str|z|id|l]; try reflexivity.
  destruct (st_heap s !! l) as [o|] eqn:Hl; [|reflexivity].
  destruct (resolve_cases (st_heap s) "includes" o) as [->|[[f ->]|[[] ->]]];
    simpl; try reflexivity.
  - by destruct (is_callable _ f).
  - rewrite Hl. by destruct (is_array_obj o && elements_own o).
Qed.

(** [resolve] never yields a built-in method under the name [cast]. *)
Lemma resolve_cast h o :
  resolve h "cast" o = None ∨ ∃ v, resolve h "cast" o = Some (RValue v).
Proof.
  destruct (resolve_cases h "cast" o) as [->|[[f ->]|[[] ->]]]; eauto.
Qed.

Lemma resolve_push h o :
  resolve h "push" o = None ∨ (∃ v, resolve h "push" o = Some (RValue v)) ∨
  resolve h "push" o = Some RPush.
Proof.
  destruct (resolve_cases h "push" o) as [->|[[f ->]|[[] ->]]]; eauto.
Qed.

Lemma resolve_hasOwnProperty h o :
  resolve h "hasOwnProperty" o = None ∨
  (∃ v, resolve h "hasOwnProperty" o = Some (RValue v)) ∨
  resolve h "hasOwnProperty" o = Some RHasOwnProperty.
Proof.
  destruct (resolve_cases h "hasOwnProperty" o) as [->|[[f ->]|[[] ->]]];
    eauto.
Qed.

Lemma get_cast s movie :
  to_boolean movie = true → live (st_heap s) movie →
  get movie "cast" s = (Normal (cast_of (st_heap s) movie), s) ∨
  get movie "cast" s = (Outside, s).
Proof.
  intros Hm Hlive. unfold get, get_prop, cast_of. unfold_monad.
  destruct movie as [| |b|x|str|z|id|l]; try done; try (by left).
  simpl in *. destruct Hlive as [o Hl]. rewrite Hl.
  destruct (resolve_cast (st_heap s) o) as [->|[v ->]]; auto.
Qed.

Lemma get_cast_dangling s l :
  st_heap s !! l = None → get (VRef l) "cast" s = (Outside, s).
Proof. intros Hl. unfold get, get_prop. unfold_monad. by rewrite Hl. Qed.


Lemma cast_of_cast_array s movie c oc :
  cast_array s movie c oc → cast_of (st_heap s) movie = VRef c.
Proof.
  intros (l & o & -> & Hl & Hres & _). simpl. by rewrite Hl, Hres.
Qed.


(** Calling [push] either leaves the state alone or appends to an array
    whose [push] is the built-in method. *)
Lemma call_push_state s c v r s' :
  call_method (VRef c) "push" v s = (r, s') →
  s' = s ∨
  ∃ oc, st_heap s !! c = Some oc ∧ is_array_obj oc = true ∧
        resolve (st_heap s) "push" oc = Some RPush ∧
        may_append (st_heap s) oc = Accept ∧
        s' = updated c (pushed v oc) s ∧
        ∃ n, r = Normal n.
Proof.
  unfold call_method, get_prop, array_push. unfold_monad.
  destruct (st_heap s !! c) as [oc|] eqn:Hc; [|intros [= <- <-]; auto].
  destruct (resolve_push (st_heap s) oc) as [Hres|[[f Hres]|Hres]];
    rewrite Hres; simpl.
  - intros [= <- <-]; auto.
  - destruct (is_callable _ f); intros [= <- <-]; auto.
  - rewrite Hc. destruct (is_array_obj oc) eqn:Ha; [|intros [= <- <-]; auto].
    destruct (may_append (st_heap s) oc) eqn:Happ; intros [= <- <-]; auto.
    right. exists oc. repeat split; eauto.
Qed.


Lemma get_own_ref s l o k x :
  st_heap s !! l = Some o → obj_get_own k o = Some x →
  get (VRef l) k s = (Normal x, s).
Proof.
  intros Hl Hown. unfold get, get_prop. unfold_monad.
  by rewrite Hl, (resolve_own _ _ _ _ Hown).
Qed.

Lemma get_own_property s v k x :
  own_property (st_heap s) v k = Some x → get v k s = (Normal x, s).
Proof.
  unfold own_property.
  destruct v as [| |b|y|str|z|id|l]; try done.
  destruct (st_heap s !! l) as [o|] eqn:Hl; [|done].
  destruct (is_object _ _); [|done]. intros Hown. by eapply get_own_ref.
Qed.

Lemma get_length_array s l o :
  st_heap s !! l = Some o → is_array_obj o = true →
  get (VRef l) "length" s = (Normal (VNum (num_of_nat (length (o_elems o)))), s).
Proof.
  intros Hl Ha. eapply get_own_ref; [done|].
  unfold obj_get_own. simpl. by rewrite Ha.
Qed.

#[local] Arguments call_method : simpl never.
#[local] Arguments put : simpl never.
#[local] Arguments get : simpl never.
#[local] Arguments is_array : simpl never.

(** * Evaluation of the functions of [movie-manipulation.js] *)

Lemma setMovieRating_eval s movie rating :
  setMovieRating movie rating s =
  if to_boolean movie && valid_rating rating then
    match movie with
    | VRef l =>
        match st_heap s !! l with
        | Some o => stored l o "rating" rating s
        | None => (Outside, s)
        end
    | _ => (Throw TypeError, s)
    end
  else (Normal movie, logged ConsoleError rating_msg s).
Proof.
  unfold setMovieRating, stored. unfold_monad.
  destruct (to_boolean movie) eqn:Hm; [|reflexivity].
  destruct rating as [| |b|x|str|z|id|lr]; simpl; try reflexivity.
  - destruct (PrimFloat.leb 0 x); simpl; [|reflexivity].
    destruct (PrimFloat.leb x 10); simpl; [|reflexivity].
    destruct movie as [| | | | | | |l]; try discriminate;
      try (rewrite put_primitive; [reflexivity|exact I|reflexivity]).
    destruct (st_heap s !! l) as [o|] eqn:Hl.
    + rewrite (put_ref _ _ _ "rating" _ Hl eq_refl).
      by destruct (may_assign _ _ _).
    + by rewrite (put_dangling _ _ "rating" _ Hl eq_refl).
  - destruct (st_heap s !! lr) as [o|]; [destruct (o_class o)|]; reflexivity.
Qed.

Lemma addMovieGenre_eval G s movie genre :
  genres_intact G s →
  addMovieGenre G movie genre s =
  if to_boolean movie && allowed_genre genre then
    match movie with
    | VRef l =>
        match st_heap s !! l with
        | Some o => stored l o "genre" genre s
        | None => (Outside, s)
        end
    | _ => (Throw TypeError, s)
    end
  else (Normal movie, logged ConsoleError genre_msg s).
Proof.
  intros (g & -> & Hg).
  unfold addMovieGenre, stored. unfold_monad.
  destruct (to_boolean movie) eqn:Hm; [|reflexivity].
  destruct genre as [| | | |name| | |lg]; simpl; try reflexivity.
  - rewrite (call_includes _ _ _ _ Hg).
    change (existsb (λ e, same_value_zero e (VStr name)) (VStr <$> genre_names))
      with (allowed_genre (VStr name)).
    simpl to_boolean.
    destruct (allowed_genre (VStr name)); [|reflexivity].
    change (to_boolean (VBool true)) with true. cbv iota.
    destruct movie as [| | | | | | |l]; try discriminate;
      try (rewrite put_primitive; [reflexivity|exact I|reflexivity]).
    destruct (st_heap s !! l) as [o|] eqn:Hl.
    + rewrite (put_ref _ _ _ "genre" _ Hl eq_refl).
      by destruct (may_assign _ _ _).
    + by rewrite (put_dangling _ _ "genre" _ Hl eq_refl).
  - destruct (st_heap s !! lg) as [o|]; [destruct (o_class o)|]; reflexivity.
Qed.

(** Without the module invariant the call can still only log, assign
    [genre] on the record, or stop without touching the state. *)
Lemma addMovieGenre_cases G s movie genre :
  let r := addMovieGenre G movie genre s in
  r = (Normal movie, logged ConsoleError genre_msg s) ∨
  (∃ l o, movie = VRef l ∧ st_heap s !! l = Some o ∧
          may_assign (st_heap s) "genre" o = Accept ∧
          r = (Normal movie, updated l (set_named "genre" genre o) s)) ∨
  r.2 = s.
Proof.
  unfold addMovieGenre. unfold_monad.
  destruct (to_boolean movie) eqn:Hm; [|by left].
  destruct (strict_equal (VStr (typeof (st_heap s) genre)) (VStr "string"))
    eqn:Hstr; [|by left].
  pose proof (call_includes_state G genre s) as Hs.
  destruct (call_method G "includes" genre s) as [[b| |] s1] eqn:Hcall;
    simpl in Hs; subst s1; simpl; auto.
  destruct (to_boolean b) eqn:Hb; [|by left].
  destruct movie as [| | | | | | |l]; try discriminate;
    try (rewrite put_primitive; [simpl; auto|exact I|reflexivity]).
  destruct (st_heap s !! l) as [o|] eqn:Hl.
  - rewrite (put_ref _ _ _ "genre" _ Hl eq_refl).
    destruct (may_assign (st_heap s) "genre" o) eqn:Hput; simpl; auto.
    right; left. exists l, o. repeat split; auto.
  - rewrite (put_dangling _ _ "genre" _ Hl eq_refl). auto.
Qed.

Lemma call_hasOwnProperty s l o k :
  st_heap s !! l = Some o →
  resolve (st_heap s) "hasOwnProperty" o = Some RHasOwnProperty →
  call_method (VRef l) "hasOwnProperty" (VStr k) s
  = (Normal (VBool (obj_has_own k o)), s).
Proof.
  intros Hl Hres. unfold call_method, get_prop, has_own_property.
  unfold_monad. by rewrite Hl, Hres, Hl.
Qed.

(** Calling [hasOwnProperty] never changes the state. *)
Lemma call_hasOwnProperty_state base k s :
  (call_method base "hasOwnProperty" (VStr k) s).2 = s.
Proof.
  unfold call_method, get_prop, has_own_property. unfold_monad.
  destruct base as [| |b|y|str|z|id|l]; try reflexivity.
  destruct (st_heap s !! l) as [o|] eqn:Hl; [|reflexivity].
  destruct (resolve_hasOwnProperty (st_heap s) o) as [->|[[f ->]| ->]];
    simpl; try reflexivity.
  - by destruct (is_callable _ f).
  - by rewrite Hl.
Qed.

Lemma delete_director s l o :
  st_heap s !! l = Some o →
  delete_prop (VRef l) "director" s =
  if obj_has_own "director" o then
    if is_fixed "director" o then (Throw TypeError, s)
    else (Normal (), updated l (del_named "director" o) s)
  else (Normal (), s).
Proof.
  intros Hl. unfold delete_prop, obj_has_own. unfold_monad. simpl.
  rewrite Hl. destruct (obj_get_own "director" o); [|reflexivity].
  by destruct (is_fixed "director" o).
Qed.

Lemma removeDirectorProperty_builtin s l o :
  st_heap s !! l = Some o →
  resolve (st_heap s) "hasOwnProperty" o = Some RHasOwnProperty →
  removeDirectorProperty (VRef l) s = removed l o s.
Proof.
  intros Hl Hres. unfold removeDirectorProperty, removed. unfold_monad.
  simpl. rewrite (call_hasOwnProperty _ _ _ _ Hl Hres). simpl.
  destruct (obj_has_own "director" o) eqn:Hd; [|reflexivity].
  rewrite (delete_director _ _ _ Hl), Hd.
  by destruct (is_fixed "director" o).
Qed.

Lemma removeDirectorProperty_cases s movie :
  let r := removeDirectorProperty movie s in
  r = (Normal movie, logged ConsoleError director_msg s) ∨
  (∃ l o, movie = VRef l ∧ st_heap s !! l = Some o ∧
          resolve (st_heap s) "hasOwnProperty" o = Some RHasOwnProperty ∧
          obj_has_own "director" o = true ∧ is_fixed "director" o = false ∧
          r = (Normal movie, updated l (del_named "director" o) s)) ∨
  r = (Throw TypeError, s) ∨ r = (Outside, s).
Proof.
  simpl. destruct movie as [| |b|x|str|z|id|l].
  1-7: unfold removeDirectorProperty, call_method, get_prop, has_own_property;
       unfold_monad; simpl; auto.
  - destruct b; simpl; auto.
  - destruct (negb _); simpl; auto.
  - destruct (negb _); simpl; auto.
  - destruct (negb _); simpl; auto.
  - destruct (st_heap s !! l) as [o|] eqn:Hl.
    + destruct (resolve_hasOwnProperty (st_heap s) o) as [Hres|[[f Hres]|Hres]].
      * unfold removeDirectorProperty, call_method, get_prop. unfold_monad.
        simpl. rewrite Hl, Hres. auto.
      * unfold removeDirectorProperty, call_method, get_prop. unfold_monad.
        simpl. rewrite Hl, Hres. simpl. destruct (is_callable _ f); auto.
      * rewrite (removeDirectorProperty_builtin _ _ _ Hl Hres). unfold removed.
        destruct (obj_has_own "director" o) eqn:Hd; auto.
        destruct (is_fixed "director" o) eqn:Hf; auto.
        right; left. exists l, o. repeat split; auto.
    + unfold removeDirectorProperty, call_method, get_prop. unfold_monad.
      simpl. rewrite Hl. auto.
Qed.

Lemma removeDirectorProperty_primitive s movie :
  primitive movie →
  removeDirectorProperty movie s =
  (Normal movie, logged ConsoleError director_msg s).
Proof.
  intros Hp.
  unfold removeDirectorProperty, call_method, get_prop, has_own_property.
  unfold_monad.
  destruct movie as [| |b|x|str|z|id|l]; try done; simpl.
  - by destruct b.
  - by destruct (negb _).
  - by destruct (negb _).
  - by destruct (negb _).
Qed.

Lemma removeDirectorProperty_not_callable s l o v :
  st_heap s !! l = Some o →
  resolve (st_heap s) "hasOwnProperty" o = Some (RValue v) →
  is_callable (st_heap s) v = false →
  removeDirectorProperty (VRef l) s = (Throw TypeError, s).
Proof.
  intros Hl Hres Hc.
  unfold removeDirectorProperty, call_method, get_prop. unfold_monad.
  simpl. rewrite Hl, Hres. simpl. by rewrite Hc.
Qed.

Lemma addCastMember_falsy s movie x :
  to_boolean movie = false →
  addCastMember movie x s = (Normal movie, logged ConsoleError cast_msg s).
Proof. intros Hm. unfold addCastMember. unfold_monad. by rewrite Hm. Qed.

Lemma addCastMember_broken s movie x :
  to_boolean movie = true → get movie "cast" s = (Outside, s) →
  addCastMember movie x s = (Outside, s).
Proof.
  intros Hm Hget. unfold addCastMember. unfold_monad. by rewrite Hm, Hget.
Qed.

Lemma addCastMember_dangling s l x :
  st_heap s !! l = None → addCastMember (VRef l) x s = (Outside, s).
Proof.
  intros Hl. apply addCastMember_broken; [done|].
  by apply get_cast_dangling.
Qed.

Lemma addCastMember_live s movie x :
  to_boolean movie = true →
  get movie "cast" s = (Normal (cast_of (st_heap s) movie), s) →
  addCastMember movie x s =
  if is_array (st_heap s) (cast_of (st_heap s) movie) && is_string x then
    match call_method (cast_of (st_heap s) movie) "push" x s with
    | (Normal _, s') => (Normal movie, s')
    | (Throw e, s') => (Throw e, s')
    | (Outside, s') => (Outside, s')
    end
  else (Normal movie, logged ConsoleError cast_msg s).
Proof.
  intros Hm Hget. unfold addCastMember. unfold_monad. rewrite Hm, Hget.
  simpl. destruct (is_array _ _); [|reflexivity].
  destruct x as [| | | |str| | |lx]; simpl; try reflexivity.
  - rewrite Hget.
    destruct (call_method _ _ _ _) as [[] ?]; reflexivity.
  - destruct (st_heap s !! lx) as [ox|]; [destruct (o_class ox)|]; reflexivity.
Qed.

Lemma is_array_ref h c :
  is_array h (VRef c) = true ↔ ∃ oc, h !! c = Some oc ∧ is_array_obj oc = true.
Proof.
  unfold is_array, is_array_obj, is_array_class. destruct (h !! c) as [oc|].
  - split; [eauto|]. by intros (? & [= <-] & ?).
  - split; [done|]. by intros (? & [=] & _).
Qed.

Lemma is_array_value h v :
  is_array h v = true → ∃ c, v = VRef c.
Proof. destruct v; try done. eauto. Qed.

Lemma cast_of_array s movie c :
  cast_of (st_heap s) movie = VRef c → is_array (st_heap s) (VRef c) = true →
  ∃ oc, cast_array s movie c oc.
Proof.
  intros Hc Ha. apply is_array_ref in Ha as (oc & Hoc & Ha).
  exists oc. unfold cast_of in Hc.
  destruct movie as [| | | | | | |l]; try done.
  destruct (st_heap s !! l) as [o|] eqn:Hl; [|done].
  destruct (resolve (st_heap s) "cast" o) as [[v| | |]|] eqn:Hres; try done.
  subst v. exists l, o. auto.
Qed.

(** The outcomes of [addCastMember]: the heap is left as it was, or a
    string is appended to the array [movie.cast] through the built-in
    [push]. *)
Lemma addCastMember_cases s movie x :
  let r := addCastMember movie x s in
  st_heap r.2 = st_heap s ∨
  ∃ c oc, cast_array s movie c oc ∧
          resolve (st_heap s) "push" oc = Some RPush ∧
          may_append (st_heap s) oc = Accept ∧ is_string x = true ∧
          r = (Normal movie, updated c (pushed x oc) s).
Proof.
  simpl. destruct (to_boolean movie) eqn:Hm;
    [|left; by rewrite addCastMember_falsy].
  assert (live (st_heap s) movie ∨ ∃ l, movie = VRef l ∧ st_heap s !! l = None)
    as [Hlive|(l & -> & Hl)].
  { destruct movie as [| | | | | | |l]; try (by left).
    destruct (st_heap s !! l) eqn:Hl; [left; by eexists|right; eauto]. }
  2: { left. by rewrite addCastMember_dangling. }
  destruct (get_cast _ _ Hm Hlive) as [Hget|Hget];
    [|left; by rewrite addCastMember_broken].
  rewrite (addCastMember_live _ _ _ Hm Hget).
  destruct (is_array (st_heap s) (cast_of (st_heap s) movie)) eqn:Ha;
    [|by left].
  destruct (is_string x) eqn:Hx; [|by left]. simpl.
  destruct (is_array_value _ _ Ha) as [c Hc]. rewrite Hc in Ha |- *.
  destruct (call_method (VRef c) "push" x s) as [r s'] eqn:Hcall.
  destruct (call_push_state _ _ _ _ _ Hcall)
    as [->|(oc & Hoc & Harr & Hres & Happ & -> & n & ->)].
  - left. by destruct r.
  - right. exists c, oc. split; [|done].
    destruct (cast_of_array _ _ _ Hc Ha) as (oc' & l & o & -> & Hl & Hown & Hoc' & ?).
    exists l, o. repeat split; try done.
Qed.

Lemma getAllowedGenres_eval G s :
  genres_intact G s →
  getAllowedGenres G s =
  (Normal (VRef (next_loc s)),
   updated (next_loc s) (array_from (VStr <$> genre_names)) s).
Proof.
  intros (g & -> & Hg). unfold getAllowedGenres, spread. unfold_monad.
  rewrite Hg.
  change (is_array_obj (array_from _) && elements_own (array_from _))
    with true.
  cbv iota. by rewrite alloc_eval, elements_array_from.
Qed.

Lemma module_init_eval s :
  module_init s =
  (Normal (VRef (next_loc s)),
   updated (next_loc s) (array_from (VStr <$> genre_names)) s).
Proof. reflexivity. Qed.

(** Loading the module establishes the invariant. *)
Lemma module_init_intact s G s' :
  module_init s = (Normal G, s') → genres_intact G s'.
Proof.
  rewrite module_init_eval. intros [= <- <-].
  exists (next_loc s). split; [done|]. apply lookup_insert_eq.
Qed.

(** * Evaluation of the functions of [movie-validation.js] *)

Lemma isObject_eval s v :
  isObject v s = (Normal (is_object (st_heap s) v), s).
Proof.
  unfold isObject. unfold_monad.
  destruct v as [| |b|x|str|z|id|l]; try reflexivity.
  simpl. by destruct (st_heap s !! l) as [[[] ? ? ? ? ? ?]|].
Qed.

Lemma hasPropertyOfType_eval s v k tag :
  live (st_heap s) v →
  hasPropertyOfType v k tag s =
  (Normal match own_property (st_heap s) v k with
          | Some x => strict_equal (VStr (typeof (st_heap s) x)) tag
          | None => false
          end, s).
Proof.
  intros Hlive. unfold hasPropertyOfType.
  unfold and_also at 1. unfold bind at 1. rewrite isObject_eval.
  unfold own_property.
  destruct v as [| |b|x|str|z|id|l]; try reflexivity.
  destruct Hlive as [o Hl]. rewrite Hl.
  destruct (is_object (st_heap s) (VRef l)); [|reflexivity].
  unfold has_own_property, get, get_prop, obj_has_own. unfold_monad. rewrite Hl.
  destruct (obj_get_own k o) as [x|] eqn:Hown; [|reflexivity].
  by rewrite Hl, (resolve_own _ _ _ _ Hown).
Qed.

#[local] Arguments hasPropertyOfType : simpl never.

Lemma getMovieTitle_eval s movie :
  live (st_heap s) movie →
  getMovieTitle movie s =
  match own_property (st_heap s) movie "title" with
  | Some (VStr t) => (Normal (VStr t), s)
  | _ => (Normal (VStr EmptyString), logged ConsoleLog title_msg s)
  end.
Proof.
  intros Hlive. unfold getMovieTitle. unfold bind at 1.
  rewrite (hasPropertyOfType_eval _ _ _ _ Hlive).
  destruct (own_property _ _ _) as [x|] eqn:Hown; [|reflexivity].
  rewrite typeof_string.
  destruct x; try reflexivity. simpl. by apply get_own_property.
Qed.

Lemma getMovieYear_eval s movie :
  live (st_heap s) movie →
  getMovieYear movie s =
  match own_property (st_heap s) movie "year" with
  | Some (VNum y) => (Normal (VNum y), s)
  | _ => (Normal (VNum 0), logged ConsoleLog year_msg s)
  end.
Proof.
  intros Hlive. unfold getMovieYear. unfold bind at 1.
  rewrite (hasPropertyOfType_eval _ _ _ _ Hlive).
  destruct (own_property _ _ _) as [x|] eqn:Hown; [|reflexivity].
  rewrite typeof_number.
  destruct x; try reflexivity. simpl. by apply get_own_property.
Qed.

Lemma isMovieClassic_eval s movie :
  live (st_heap s) movie →
  isMovieClassic movie s =
  match own_property (st_heap s) movie "year" with
  | Some (VNum y) =>
      if PrimFloat.eqb y 0
      then (Normal (VBool false), logged ConsoleLog classic_msg s)
      else (Normal (VBool (PrimFloat.ltb y 2000)), s)
  | _ => (Normal (VBool false),
          logged ConsoleLog classic_msg (logged ConsoleLog year_msg s))
  end.
Proof.
  intros Hlive. unfold isMovieClassic. unfold bind at 1.
  rewrite (getMovieYear_eval _ _ Hlive).
  destruct (own_property _ _ _) as [[| |b|y|str|z|id|l]|]; try reflexivity.
  simpl. by destruct (PrimFloat.eqb y 0).
Qed.

Lemma getMovieKeys_object s l o :
  st_heap s !! l = Some o → is_object (st_heap s) (VRef l) = true →
  getMovieKeys (VRef l) s =
  (Normal (VRef (next_loc s)),
   updated (next_loc s) (array_from (VStr <$> own_keys o)) s).
Proof.
  intros Hl Ho. unfold getMovieKeys. unfold bind at 1.
  rewrite isObject_eval, Ho. simpl. unfold get_heap, bind. by rewrite Hl.
Qed.

Lemma getMovieKeys_invalid s v :
  is_object (st_heap s) v = false →
  getMovieKeys v s =
  (Normal (VRef (next_loc s)),
   updated (next_loc s) (array_from []) (logged ConsoleLog keys_msg s)).
Proof.
  intros Ho. unfold getMovieKeys. unfold bind at 1.
  by rewrite isObject_eval, Ho.
Qed.

Lemma getMoviePropertiesCount_object s l o :
  st_heap s !! l = Some o → is_object (st_heap s) (VRef l) = true →
  getMoviePropertiesCount (VRef l) s =
  (Normal (VNum (num_of_nat (length (own_keys o)))),
   updated (next_loc s) (array_from (VStr <$> own_keys o)) s).
Proof.
  intros Hl Ho. unfold getMoviePropertiesCount. unfold bind at 1.
  rewrite isObject_eval, Ho. simpl. unfold bind at 1.
  rewrite (getMovieKeys_object _ _ _ Hl Ho).
  erewrite get_length_array; [| apply lookup_insert_eq | reflexivity].
  simpl. by rewrite !length_fmap.
Qed.

Lemma getMoviePropertiesCount_invalid s v :
  is_object (st_heap s) v = false →
  getMoviePropertiesCount v s = (Normal (VNum 0), logged ConsoleLog count_msg s).
Proof.
  intros Ho. unfold getMoviePropertiesCount. unfold bind at 1.
  by rewrite isObject_eval, Ho.
Qed.


(** * The claims *)

(** ** setMovieRating *)

(** C2, as the code has it.  On every record (a live object [o] at [l]): a
    rating is valid exactly when it is a number with 0 <= rating <= 10.
    When [rating] is valid and the strict-mode assignment to [rating] is
    accepted, the call stores exactly [rating] as the record's own [rating]
    property (so that reading [m.rating] afterwards yields it) and returns
    the record; when the assignment is refused, the call raises a
    [TypeError] and leaves the state as it was.  For every other [rating]
    it returns the record with the heap, hence the record and its [rating],
    unchanged.  On a record without a user-defined prototype the assignment
    is accepted exactly when the record has a writable own [rating], or has
    no own [rating] and is extensible, and is refused otherwise; on every
    record whose prototype chain can be followed it is accepted or
    refused. *)
Theorem setMovieRating_sets_valid_rating
    (s : state) (l : loc) (o : obj) (rating : value) :
  st_heap s !! l = Some o →
  (valid_rating rating = true ↔
     ∃ x, rating = VNum x ∧
          PrimFloat.leb 0 x = true ∧ PrimFloat.leb x 10 = true) ∧
  (valid_rating rating = true →
     (may_assign (st_heap s) "rating" o = Accept →
        setMovieRating (VRef l) rating s
          = (Normal (VRef l), updated l (set_named "rating" rating o) s) ∧
        obj_get_own "rating" (set_named "rating" rating o) = Some rating ∧
        get (VRef l) "rating" (updated l (set_named "rating" rating o) s)
          = (Normal rating, updated l (set_named "rating" rating o) s)) ∧
     (may_assign (st_heap s) "rating" o = Refuse →
        setMovieRating (VRef l) rating s = (Throw TypeError, s))) ∧
  (valid_rating rating = false →
     ∃ s', setMovieRating (VRef l) rating s = (Normal (VRef l), s') ∧
           st_heap s' = st_heap s ∧ st_heap s' !! l = Some o) ∧
  (no_user_proto o →
     (may_assign (st_heap s) "rating" o = Accept ↔
      match obj_get_own "rating" o with
      | Some _ => is_readonly "rating" o = false
      | None => o_extensible o = true
      end) ∧
     (may_assign (st_heap s) "rating" o = Refuse ↔
      match obj_get_own "rating" o with
      | Some _ => is_readonly "rating" o = true
      | None => o_extensible o = false
      end)) ∧
  (∀ ls, chain (st_heap s) (o_proto o) ls → NoDup ls →
     may_assign (st_heap s) "rating" o = Accept ∨
     may_assign (st_heap s) "rating" o = Refuse).
Proof.
  intros Hl. split; [apply valid_rating_spec|].
  rewrite setMovieRating_eval, Hl. simpl to_boolean.
  rewrite andb_true_l. unfold stored.
  split; [|split; [|split]].
  4: { intros ls Hchain Hnd.
       pose proof (may_assign_chain _ "rating" _ _ Hchain Hnd).
       destruct (may_assign _ _ _); [by left|by right|done]. }
  - intros Hv. rewrite Hv. split; intros ->; [|done].
    split; [done|].
    pose proof (obj_get_own_set_named "rating" rating o named_rating) as Hown.
    split; [done|]. eapply get_own_ref; [apply lookup_insert_eq|done].
  - intros Hv. rewrite Hv. eexists. split; [done|]. by split.
  - intros Hp. rewrite (may_assign_no_user_proto _ _ _ Hp).
    destruct (obj_get_own "rating" o);
      [destruct (is_readonly "rating" o)|destruct (o_extensible o)];
      by split.
Qed.

Lemma setMovieRating_sets_valid_rating_witness :
  st_heap toy_state !! 2 = Some toy_story ∧
  setMovieRating (VRef 2) (VNum 9.5) toy_state
    = (Normal (VRef 2), updated 2 (set_named "rating" (VNum 9.5) toy_story) toy_state).
Proof.
  split; [reflexivity|].
  destruct (setMovieRating_sets_valid_rating toy_state 2 toy_story (VNum 9.5)
              eq_refl) as (_ & Hvalid & _).
  destruct (Hvalid eq_refl) as [Haccept _].
  apply Haccept. reflexivity.
Defined.

(** The claim as stated fails on a frozen record: the record is a non-null
    object and the rating is valid, yet the call raises a [TypeError], and
    the record keeps the rating it had. *)
Lemma setMovieRating_throws_on_frozen_record :
  st_heap frozen_story_state !! 2 = Some (frozen toy_story) ∧
  valid_rating (VNum 9.5) = true ∧
  setMovieRating (VRef 2) (VNum 9.5) frozen_story_state
    = (Throw TypeError, frozen_story_state) ∧
  obj_get_own "rating" (frozen toy_story) = Some (VNum 8.5).
Proof. repeat split; reflexivity. Qed.

(** The same on a record that is merely not extensible and has no [rating]
    yet, as after [Object.preventExtensions({})]. *)
Example setMovieRating_throws_on_non_extensible_record :
  let s := State {[0 := not_extensible (Obj COrdinary PBuiltin [] [])]} [] in
  setMovieRating (VRef 0) (VNum 9.5) s = (Throw TypeError, s).
Proof. reflexivity. Qed.

(** ** addMovieGenre *)

(** C3, as the code has it.  With the module loaded ([allowedGenres]
    intact), on every record [o] at [l]: [genre] is allowed exactly when it
    is a string equal to one of the six names.  When it is allowed and the
    strict-mode assignment to [genre] is accepted, the call stores it as the
    record's own [genre] property and returns the record, and a [genre] that
    was already there is replaced in place (same keys, the new value is the
    string itself); when the assignment is refused, the call raises a
    [TypeError] and leaves the state as it was.  When [genre] is not
    allowed, the heap, hence the record and its [genre], is unchanged.  On a
    record without a user-defined prototype the assignment is accepted
    exactly when the record has a writable own [genre], or has no own
    [genre] and is extensible, and is refused otherwise; on every record
    whose prototype chain can be followed it is accepted or refused. *)
Theorem addMovieGenre_sets_allowed_genre
    (G : value) (s : state) (l : loc) (o : obj) (genre : value) :
  genres_intact G s →
  st_heap s !! l = Some o →
  (allowed_genre genre = true ↔ ∃ g, genre = VStr g ∧ g ∈ genre_names) ∧
  (allowed_genre genre = true →
     (may_assign (st_heap s) "genre" o = Accept →
        addMovieGenre G (VRef l) genre s
          = (Normal (VRef l), updated l (set_named "genre" genre o) s) ∧
        obj_get_own "genre" (set_named "genre" genre o) = Some genre ∧
        (is_Some (obj_get_own "genre" o) →
         own_keys (set_named "genre" genre o) = own_keys o)) ∧
     (may_assign (st_heap s) "genre" o = Refuse →
        addMovieGenre G (VRef l) genre s = (Throw TypeError, s))) ∧
  (allowed_genre genre = false →
     ∃ s', addMovieGenre G (VRef l) genre s = (Normal (VRef l), s') ∧
           st_heap s' = st_heap s ∧ st_heap s' !! l = Some o) ∧
  (no_user_proto o →
     (may_assign (st_heap s) "genre" o = Accept ↔
      match obj_get_own "genre" o with
      | Some _ => is_readonly "genre" o = false
      | None => o_extensible o = true
      end) ∧
     (may_assign (st_heap s) "genre" o = Refuse ↔
      match obj_get_own "genre" o with
      | Some _ => is_readonly "genre" o = true
      | None => o_extensible o = false
      end)) ∧
  (∀ ls, chain (st_heap s) (o_proto o) ls → NoDup ls →
     may_assign (st_heap s) "genre" o = Accept ∨
     may_assign (st_heap s) "genre" o = Refuse).
Proof.
  intros HG Hl. split; [apply allowed_genre_spec|].
  rewrite (addMovieGenre_eval _ _ _ _ HG), Hl. simpl to_boolean.
  rewrite andb_true_l. unfold stored.
  split; [|split; [|split]].
  4: { intros ls Hchain Hnd.
       pose proof (may_assign_chain _ "genre" _ _ Hchain Hnd).
       destruct (may_assign _ _ _); [by left|by right|done]. }
  - intros Hv. rewrite Hv. split; intros ->; [|done].
    split; [done|].
    split; [apply obj_get_own_set_named, named_genre|].
    apply own_keys_set_named_present, named_genre.
  - intros Hv. rewrite Hv. eexists. split; [done|]. by split.
  - intros Hp. rewrite (may_assign_no_user_proto _ _ _ Hp).
    destruct (obj_get_own "genre" o);
      [destruct (is_readonly "genre" o)|destruct (o_extensible o)];
      by split.
Qed.

Lemma toy_state_genres_intact : genres_intact (VRef 0) toy_state.
Proof. exists 0. split; reflexivity. Qed.

Lemma addMovieGenre_sets_allowed_genre_witness :
  addMovieGenre (VRef 0) (VRef 2) (VStr "Family") toy_state
    = (Normal (VRef 2),
       updated 2 (set_named "genre" (VStr "Family") toy_story) toy_state) ∧
  own_keys (set_named "genre" (VStr "Family") toy_story) = own_keys toy_story.
Proof.
  destruct (addMovieGenre_sets_allowed_genre (VRef 0) toy_state 2 toy_story
              (VStr "Family") toy_state_genres_intact eq_refl)
    as (_ & Hset & _).
  destruct (Hset eq_refl) as [Haccept _].
  destruct (Haccept eq_refl) as (Hrun & _ & Hkeys).
  split; [exact Hrun|]. apply Hkeys. by eexists.
Defined.

(** The claim as stated fails on a frozen record: the genre is one of the
    six names, yet the call raises a [TypeError] and the record keeps the
    genre it had. *)
Lemma addMovieGenre_throws_on_frozen_record :
  genres_intact (VRef 0) frozen_story_state ∧
  st_heap frozen_story_state !! 2 = Some (frozen toy_story) ∧
  allowed_genre (VStr "Family") = true ∧
  addMovieGenre (VRef 0) (VRef 2) (VStr "Family") frozen_story_state
    = (Throw TypeError, frozen_story_state) ∧
  obj_get_own "genre" (frozen toy_story) = Some (VStr "Animation").
Proof.
  split; [exists 0; split; reflexivity|]. repeat split; reflexivity.
Qed.

(** ** getMovieYear and isMovieClassic *)

(** C6.  For every live input: [getMovieYear] returns the own [year]
    property of a record when that property is a number and the number 0
    otherwise (for [null] and for a record without [year] in particular);
    [isMovieClassic] returns [false] whenever [getMovieYear] yields a number
    equal to 0 and otherwise [true] exactly when that year is below 2000, so
    a record with year 1995 is classic and one with year 2020 is not. *)
Theorem getMovieYear_isMovieClassic_spec (s : state) (movie : value) :
  live (st_heap s) movie →
  (∀ y, own_property (st_heap s) movie "year" = Some (VNum y) →
        getMovieYear movie s = (Normal (VNum y), s)) ∧
  ((∀ y, own_property (st_heap s) movie "year" ≠ Some (VNum y)) →
        getMovieYear movie s = (Normal (VNum 0), logged ConsoleLog year_msg s)) ∧
  getMovieYear VNull s = (Normal (VNum 0), logged ConsoleLog year_msg s) ∧
  (own_property (st_heap s) movie "year" = None →
        getMovieYear movie s = (Normal (VNum 0), logged ConsoleLog year_msg s)) ∧
  (∃ y s1, getMovieYear movie s = (Normal (VNum y), s1) ∧
     (PrimFloat.eqb y 0 = true →
        ∃ s2, isMovieClassic movie s = (Normal (VBool false), s2)) ∧
     (PrimFloat.eqb y 0 = false →
        isMovieClassic movie s = (Normal (VBool (PrimFloat.ltb y 2000)), s1))) ∧
  (own_property (st_heap s) movie "year" = Some (VNum 1995) →
        isMovieClassic movie s = (Normal (VBool true), s)) ∧
  (own_property (st_heap s) movie "year" = Some (VNum 2020) →
        isMovieClassic movie s = (Normal (VBool false), s)).
Proof.
  intros Hlive.
  rewrite (isMovieClassic_eval _ _ Hlive), (getMovieYear_eval _ _ Hlive).
  repeat split.
  - by intros y ->.
  - intros Hno. destruct (own_property _ _ _) as [[| |b|y|str|z|id|l]|];
      try reflexivity. by destruct (Hno y).
  - by intros ->.
  - destruct (own_property _ _ _) as [[| |b|y|str|z|id|l]|];
      try (exists 0%float; eexists; split; [reflexivity|];
           split; [eauto|discriminate]).
    exists y, s. split; [done|]. split; intros ->; eauto.
  - by intros ->.
  - by intros ->.
Qed.

Lemma getMovieYear_isMovieClassic_spec_witness :
  getMovieYear (VRef 2) toy_state = (Normal (VNum 1995), toy_state) ∧
  isMovieClassic (VRef 2) toy_state = (Normal (VBool true), toy_state).
Proof.
  assert (Hlive : live (st_heap toy_state) (VRef 2)) by (by eexists).
  destruct (getMovieYear_isMovieClassic_spec toy_state (VRef 2) Hlive)
    as (Hyear & _ & _ & _ & _ & H1995 & _).
  split; [apply Hyear | apply H1995]; reflexivity.
Defined.

(** ** getAllowedGenres *)

(** C7.  With the module loaded, every call returns a reference [l] that was
    not in the heap before (a fresh array, distinct from the module's own),
    holding exactly the six names in order; and however the caller then
    rewrites the object at [l] (any [o'] in its place, any further console
    output), the module's array is still intact and the next call again
    returns a fresh array with the same six names. *)
Theorem getAllowedGenres_fresh_copy (G : value) (s : state) :
  genres_intact G s →
  ∃ l,
    getAllowedGenres G s
      = (Normal (VRef l), updated l (array_from (VStr <$> genre_names)) s) ∧
    st_heap s !! l = None ∧ G ≠ VRef l ∧
    elements (array_from (VStr <$> genre_names))
      = [VStr "Animation"; VStr "Family"; VStr "Action"; VStr "Comedy";
         VStr "Drama"; VStr "Sci-Fi"] ∧
    ∀ (o' : obj) (out : list (channel * string)),
      let s' := State (<[l := o']> (st_heap s)) out in
      genres_intact G s' ∧
      ∃ l', l' ≠ l ∧
            getAllowedGenres G s'
              = (Normal (VRef l'),
                 updated l' (array_from (VStr <$> genre_names)) s').
Proof.
  intros HG. exists (next_loc s).
  pose proof (next_loc_fresh s) as Hfresh.
  split; [by apply getAllowedGenres_eval|]. split; [done|].
  destruct HG as (g & -> & Hg).
  assert (g ≠ next_loc s) as Hne by congruence.
  split; [congruence|]. split; [by rewrite elements_array_from|].
  intros o' out s'.
  assert (genres_intact (VRef g) s') as HG'.
  { exists g. split; [done|]. simpl. by rewrite lookup_insert_ne. }
  split; [done|]. exists (next_loc s'). split.
  - intros Heq. pose proof (next_loc_fresh s') as Hf. rewrite Heq in Hf.
    simpl in Hf. by rewrite lookup_insert_eq in Hf.
  - by apply getAllowedGenres_eval.
Qed.

Lemma getAllowedGenres_fresh_copy_witness :
  ∃ l, getAllowedGenres (VRef 0) toy_state
         = (Normal (VRef l),
            updated l (array_from (VStr <$> genre_names)) toy_state) ∧
       st_heap toy_state !! l = None.
Proof.
  destruct (getAllowedGenres_fresh_copy (VRef 0) toy_state
              toy_state_genres_intact) as (l & Hrun & Hfresh & _).
  exists l. by split.
Defined.

(** ** hasPropertyOfType *)

(** C8.  For every live value, property name and tag, the call returns a
    boolean and leaves the state (heap and console) exactly as it was; the
    boolean is [true] if and only if the value is a non-null object whose
    [typeof] is ["object"], it has the name as an own property, and the tag
    is the [typeof] of that property's value. *)
Theorem hasPropertyOfType_spec
    (s : state) (v : value) (k : string) (tag : value) :
  live (st_heap s) v →
  ∃ b, hasPropertyOfType v k tag s = (Normal b, s) ∧
       (b = true ↔
        ∃ l o x, v = VRef l ∧ st_heap s !! l = Some o ∧
                 o_class o ≠ CFunction ∧ obj_get_own k o = Some x ∧
                 tag = VStr (typeof (st_heap s) x)).
Proof.
  intros Hlive. eexists. split; [by apply hasPropertyOfType_eval|].
  destruct (own_property (st_heap s) v k) as [x|] eqn:Hown.
  - apply own_property_spec in Hown as (l & o & -> & Hl & Hc & Hown).
    rewrite strict_equal_typeof. split.
    + intros ->. by exists l, o, x.
    + intros (l' & o' & x' & [= <-] & Hl' & _ & Hown' & ->).
      congruence.
  - split; [done|]. intros (l & o & x & -> & Hl & Hc & Hx & _).
    assert (own_property (st_heap s) (VRef l) k = Some x) as H
      by (apply own_property_spec; by exists l, o).
    congruence.
Qed.

Lemma hasPropertyOfType_spec_witness :
  ∃ b, hasPropertyOfType (VRef 2) "title" (VStr "string") toy_state
         = (Normal b, toy_state) ∧
       (b = true ↔
        ∃ l o x, VRef 2 = VRef l ∧ st_heap toy_state !! l = Some o ∧
                 o_class o ≠ CFunction ∧ obj_get_own "title" o = Some x ∧
                 VStr "string" = VStr (typeof (st_heap toy_state) x)).
Proof.
  apply (hasPropertyOfType_spec toy_state (VRef 2) "title" (VStr "string")).
  by eexists.
Defined.

Example hasPropertyOfType_title_string :
  hasPropertyOfType (VRef 2) "title" (VStr "string") toy_state
    = (Normal true, toy_state).
Proof. reflexivity. Qed.

Example hasPropertyOfType_title_number :
  hasPropertyOfType (VRef 2) "title" (VStr "number") toy_state
    = (Normal false, toy_state).
Proof. reflexivity. Qed.

Example hasPropertyOfType_null :
  hasPropertyOfType VNull "title" (VStr "string") toy_state
    = (Normal false, toy_state).
Proof. reflexivity. Qed.

(** ** The frame of the mutation functions *)





(** ** addCastMember *)







(** A cast that is inherited is a cast all the same: on a record made by
    [Object.create(movie)] the call appends to the array of the
    prototype. *)
Example addCastMember_inherited_cast :
  cast_array heir_state (VRef 3) 1 toy_cast ∧
  addCastMember (VRef 3) (VStr "Joan Cusack") heir_state
    = (Normal (VRef 3),
       updated 1 (pushed (VStr "Joan Cusack") toy_cast) heir_state).
Proof.
  split; [|reflexivity]. exists 3, heir. by repeat split.
Qed.

(** ** Arrays passed to the accessor module *)





(** The same happens, without any named property, on an array with a hole:
    [[ "x", , "z" ]] has length 3 and two keys. *)
Example getMoviePropertiesCount_skips_holes :
  (getMoviePropertiesCount (VRef 0)
     (State {[0 := Obj CArray PBuiltin [Some (VStr "x"); None; Some (VStr "z")] []]} [])).1
  = Normal (VNum 2).
Proof. reflexivity. Qed.

(** ** removeDirectorProperty *)

(** C4 fails on a record that is a plain data object: one whose own data
    include a property named [hasOwnProperty].  The record has an own
    [director], yet the call raises a [TypeError] (the value found under
    [hasOwnProperty] is not callable) and removes nothing. *)
Lemma removeDirectorProperty_throws_on_shadowed_hasOwnProperty :
  st_heap shadowing_state !! 0 = Some shadowing_record ∧
  obj_has_own "director" shadowing_record = true ∧
  removeDirectorProperty (VRef 0) shadowing_state
    = (Throw TypeError, shadowing_state).
Proof. repeat split; reflexivity. Qed.

(** The same on a record without a prototype, as [Object.create(null)]
    makes them. *)
Example removeDirectorProperty_throws_on_null_prototype :
  let s := State {[0 := Obj COrdinary PNull [] [("director", VStr "X")]]} [] in
  removeDirectorProperty (VRef 0) s = (Throw TypeError, s).
Proof. reflexivity. Qed.




(** On a sealed record the own [director] cannot be removed. *)
Example removeDirectorProperty_throws_on_sealed_record :
  let s := State {[0 := sealed toy_story]} [] in
  removeDirectorProperty (VRef 0) s = (Throw TypeError, s).
Proof. reflexivity. Qed.

(** ** Invalid movie arguments *)

(** C1 fails on a movie argument that is a truthy primitive.  The guard of
    the mutation functions tests only the truthiness of [movie]; with a
    valid second argument a non-empty string or a non-zero number passes
    it, and the assignment to a property of a primitive raises a
    [TypeError] in strict code instead of logging
    'Invalid movie object ...' and returning the argument.  The validation
    module tests the same values with [isObject] and rejects them by
    logging. *)
Lemma setMovieRating_throws_on_truthy_primitive :
  valid_rating (VNum 9) = true ∧
  setMovieRating (VStr "Toy Story") (VNum 9) toy_state
    = (Throw TypeError, toy_state) ∧
  allowed_genre (VStr "Drama") = true ∧
  addMovieGenre (VRef 0) (VNum 1) (VStr "Drama") toy_state
    = (Throw TypeError, toy_state) ∧
  isObject (VStr "Toy Story") toy_state = (Normal false, toy_state) ∧
  getMoviePropertiesCount (VStr "Toy Story") toy_state
    = (Normal (VNum 0), logged ConsoleLog count_msg toy_state).
Proof. repeat split; reflexivity. Qed.

(** The other two mutation functions log and return every primitive. *)
Lemma addCastMember_primitive s movie x :
  primitive movie →
  addCastMember movie x s = (Normal movie, logged ConsoleError cast_msg s).
Proof.
  intros Hp. destruct (to_boolean movie) eqn:Hm;
    [|by apply addCastMember_falsy].
  assert (get movie "cast" s = (Normal VUndefined, s)) as Hget.
  { destruct movie as [| |b|y|str|z|id|l]; try done. }
  assert (cast_of (st_heap s) movie = VUndefined) as Hc by (by destruct movie).
  rewrite addCastMember_live; [|done|by rewrite Hc]. by rewrite Hc.
Qed.

(** ** getMovieTitle, getMovieKeys and getMoviePropertiesCount *)

(** X2.  For every live input, [getMovieTitle] returns the own [title]
    property of a record when that property is a string, and otherwise logs
    one message and returns the empty string. *)
Theorem getMovieTitle_spec (s : state) (movie : value) :
  live (st_heap s) movie →
  (∀ t, own_property (st_heap s) movie "title" = Some (VStr t) →
        getMovieTitle movie s = (Normal (VStr t), s)) ∧
  ((∀ t, own_property (st_heap s) movie "title" ≠ Some (VStr t)) →
        getMovieTitle movie s
          = (Normal (VStr EmptyString), logged ConsoleLog title_msg s)).
Proof.
  intros Hlive. rewrite (getMovieTitle_eval _ _ Hlive). split.
  - by intros t ->.
  - intros Hno. destruct (own_property _ _ _) as [[| |b|y|str|z|id|l]|];
      try reflexivity. by destruct (Hno str).
Qed.

Lemma getMovieTitle_spec_witness :
  getMovieTitle (VRef 2) toy_state = (Normal (VStr "Toy Story"), toy_state).
Proof.
  assert (Hlive : live (st_heap toy_state) (VRef 2)) by (by eexists).
  destruct (getMovieTitle_spec toy_state (VRef 2) Hlive) as [Htitle _].
  apply Htitle. reflexivity.
Defined.

(** X3.  On a record (a live non-callable object [o]) [getMovieKeys]
    returns a new array holding the record's own enumerable keys in order
    and [getMoviePropertiesCount] returns their number; on every value that
    is not a record [getMovieKeys] logs and returns a new empty array and
    [getMoviePropertiesCount] logs and returns 0.  A record built by
    assigning [a] then [b] has the keys [a], [b] in that order. *)
Theorem getMovieKeys_spec (s : state) (movie : value) :
  (∀ l o, movie = VRef l → st_heap s !! l = Some o → o_class o ≠ CFunction →
     getMovieKeys movie s
       = (Normal (VRef (next_loc s)),
          updated (next_loc s) (array_from (VStr <$> own_keys o)) s) ∧
     (getMoviePropertiesCount movie s).1
       = Normal (VNum (num_of_nat (length (own_keys o))))) ∧
  (is_object (st_heap s) movie = false →
     getMovieKeys movie s
       = (Normal (VRef (next_loc s)),
          updated (next_loc s) (array_from []) (logged ConsoleLog keys_msg s)) ∧
     getMoviePropertiesCount movie s
       = (Normal (VNum 0), logged ConsoleLog count_msg s)) ∧
  own_keys (set_named "b" (VNum 2)
              (set_named "a" (VNum 1) (Obj COrdinary PBuiltin [] [])))
    = ["a"; "b"].
Proof.
  split; [|split; [|reflexivity]].
  - intros l o -> Hl Hc.
    assert (is_object (st_heap s) (VRef l) = true) as Hobj.
    { simpl. rewrite Hl. by destruct (o_class o). }
    rewrite (getMovieKeys_object _ _ _ Hl Hobj).
    by rewrite (getMoviePropertiesCount_object _ _ _ Hl Hobj).
  - intros Hobj. by rewrite getMovieKeys_invalid, getMoviePropertiesCount_invalid.
Qed.

Lemma getMovieKeys_spec_witness :
  getMovieKeys (VRef 2) toy_state
    = (Normal (VRef 3),
       updated 3 (array_from (VStr <$> ["id"; "title"; "director"; "year";
                                        "genre"; "rating"; "cast"]))
         toy_state) ∧
  (getMoviePropertiesCount (VRef 2) toy_state).1 = Normal (VNum 7).
Proof.
  destruct (getMovieKeys_spec toy_state (VRef 2)) as [Hrecord _].
  apply (Hrecord 2 toy_story eq_refl eq_refl). discriminate.
Defined.

(** * How the functions behave beyond the claims *)

(** ** Logging and mutation exclude each other *)

Lemma stored_console l o k v s : st_console (stored l o k v s).2 = st_console s.
Proof. unfold stored. by destruct (may_assign _ _ _). Qed.

Lemma setMovieRating_logs_or_not s movie arg :
  setMovieRating movie arg s
    = (Normal movie, logged ConsoleError rating_msg s) ∨
  st_console (setMovieRating movie arg s).2 = st_console s.
Proof.
  rewrite setMovieRating_eval. destruct (_ && _); [right|by left].
  destruct movie as [| | | | | | |l]; try done.
  destruct (st_heap s !! l); [apply stored_console|done].
Qed.

Lemma addMovieGenre_logs_or_not G s movie arg :
  addMovieGenre G movie arg s
    = (Normal movie, logged ConsoleError genre_msg s) ∨
  st_console (addMovieGenre G movie arg s).2 = st_console s.
Proof.
  destruct (addMovieGenre_cases G s movie arg)
    as [H|[(l & o & -> & Hl & _ & H)|H]]; [by left|right; by rewrite H|right].
  simpl in H. by rewrite H.
Qed.

Lemma removeDirectorProperty_logs_or_not s movie :
  removeDirectorProperty movie s
    = (Normal movie, logged ConsoleError director_msg s) ∨
  st_console (removeDirectorProperty movie s).2 = st_console s.
Proof.
  destruct (removeDirectorProperty_cases s movie)
    as [H|[(l & o & -> & Hl & _ & _ & _ & H)|[H|H]]];
    [by left|right; by rewrite H..].
Qed.

Lemma live_or_dangling h v :
  live h v ∨ ∃ l, v = VRef l ∧ h !! l = None.
Proof.
  destruct v as [| | | | | | |l]; try (by left).
  destruct (h !! l) eqn:Hl; [left; by eexists|right; eauto].
Qed.

Lemma addCastMember_logs_or_not s movie arg :
  addCastMember movie arg s
    = (Normal movie, logged ConsoleError cast_msg s) ∨
  st_console (addCastMember movie arg s).2 = st_console s.
Proof.
  destruct (to_boolean movie) eqn:Hm; [|left; by apply addCastMember_falsy].
  destruct (live_or_dangling (st_heap s) movie) as [Hlive|(l & -> & Hl)].
  2: { right. by rewrite addCastMember_dangling. }
  destruct (get_cast _ _ Hm Hlive) as [Hget|Hget];
    [|right; by rewrite addCastMember_broken].
  rewrite (addCastMember_live _ _ _ Hm Hget).
  destruct (_ && _) eqn:Hcond; [right|by left].
  apply andb_true_iff in Hcond as [Ha _].
  destruct (is_array_value _ _ Ha) as [c ->].
  destruct (call_method (VRef c) "push" arg s) as [r s'] eqn:Hcall.
  destruct (call_push_state _ _ _ _ _ Hcall)
    as [->|(oc & _ & _ & _ & _ & -> & n & ->)]; [by destruct r|done].
Qed.

(** X4.  For every input, each of the four mutation functions either takes
    its error path, in which case it returns its first argument and the
    state differs from the initial one by exactly one [console.error] entry
    (the heap is untouched), or it writes nothing to the console at all: a
    call never both logs and mutates, and never logs twice. *)
Theorem mutators_log_or_mutate (G : value) (s : state) (movie arg : value) :
  (setMovieRating movie arg s
     = (Normal movie, logged ConsoleError rating_msg s) ∨
   st_console (setMovieRating movie arg s).2 = st_console s) ∧
  (addMovieGenre G movie arg s
     = (Normal movie, logged ConsoleError genre_msg s) ∨
   st_console (addMovieGenre G movie arg s).2 = st_console s) ∧
  (removeDirectorProperty movie s
     = (Normal movie, logged ConsoleError director_msg s) ∨
   st_console (removeDirectorProperty movie s).2 = st_console s) ∧
  (addCastMember movie arg s
     = (Normal movie, logged ConsoleError cast_msg s) ∨
   st_console (addCastMember movie arg s).2 = st_console s).
Proof.
  split; [apply setMovieRating_logs_or_not|].
  split; [apply addMovieGenre_logs_or_not|].
  split; [apply removeDirectorProperty_logs_or_not
         |apply addCastMember_logs_or_not].
Qed.

(** ** The accessors never modify an object *)

(** ** The accessors never modify an object *)

Lemma hasPropertyOfType_dangling s l k tag :
  st_heap s !! l = None → hasPropertyOfType (VRef l) k tag s = (Outside, s).
Proof.
  intros Hl. unfold hasPropertyOfType.
  unfold and_also at 1. unfold bind at 1. rewrite isObject_eval.
  simpl. rewrite Hl. simpl.
  unfold and_also, has_own_property. unfold_monad. by rewrite Hl.
Qed.

Lemma getMovieKeys_dangling s l :
  st_heap s !! l = None → getMovieKeys (VRef l) s = (Outside, s).
Proof.
  intros Hl. unfold getMovieKeys. unfold bind at 1. rewrite isObject_eval.
  simpl. rewrite Hl. simpl. unfold get_heap, bind, outside. by rewrite Hl.
Qed.

Lemma console_grew_0 c s : console_grew c 0 s s.
Proof. exists []. split; [done|]. simpl. by rewrite app_nil_r. Qed.

Lemma console_grew_logged c n msg s s' :
  console_grew c n s s' → console_grew c (S n) s (logged c msg s').
Proof.
  intros (msgs & Hn & Hc). exists (msgs ++ [msg]). split.
  - rewrite length_app. simpl. lia.
  - simpl. rewrite Hc, fmap_app. simpl. by rewrite <- app_assoc.
Qed.

Lemma objects_kept_refl s : objects_kept s s.
Proof. by intros l o. Qed.

Lemma objects_kept_updated_fresh o s s0 :
  st_heap s0 = st_heap s → objects_kept s (updated (next_loc s0) o s0).
Proof.
  intros Hh l o' Hl. simpl. rewrite lookup_insert_ne, Hh; [done|].
  intros <-. pose proof (next_loc_fresh s0) as Hf. congruence.
Qed.

Lemma getAllowedGenres_kept G s :
  objects_kept s (getAllowedGenres G s).2 ∧
  st_console (getAllowedGenres G s).2 = st_console s.
Proof.
  unfold getAllowedGenres, spread. unfold_monad.
  destruct G as [| | | | | | |g]; try (split; [apply objects_kept_refl|done]).
  destruct (st_heap s !! g) as [o|];
    [|split; [apply objects_kept_refl|done]].
  destruct (is_array_obj o && elements_own o);
    [|split; [apply objects_kept_refl|done]].
  rewrite alloc_eval. split; [by apply objects_kept_updated_fresh|done].
Qed.

Lemma accessors_dangling s l :
  st_heap s !! l = None →
  getMovieTitle (VRef l) s = (Outside, s) ∧
  getMovieYear (VRef l) s = (Outside, s) ∧
  isMovieClassic (VRef l) s = (Outside, s) ∧
  getMoviePropertiesCount (VRef l) s = (Outside, s).
Proof.
  intros Hl.
  assert (getMovieYear (VRef l) s = (Outside, s)) as Hy.
  { unfold getMovieYear. unfold bind at 1.
    by rewrite (hasPropertyOfType_dangling _ _ _ _ Hl). }
  split; [|split; [done|split]].
  - unfold getMovieTitle. unfold bind at 1.
    by rewrite (hasPropertyOfType_dangling _ _ _ _ Hl).
  - unfold isMovieClassic. unfold bind at 1. by rewrite Hy.
  - unfold getMoviePropertiesCount. unfold bind at 1. rewrite isObject_eval.
    simpl. rewrite Hl. simpl. unfold bind at 1.
    by rewrite (getMovieKeys_dangling _ _ Hl).
Qed.

(** X5.  For every input, no function of the accessor module, nor
    [getAllowedGenres], modifies or removes an object: [hasPropertyOfType]
    leaves the whole state as it was; [getMovieTitle], [getMovieYear] and
    [isMovieClassic] leave the heap as it was; [getMovieKeys],
    [getMoviePropertiesCount] and [getAllowedGenres] keep every existing
    object as it was (they only allocate).  What they write to the console
    goes through [console.log] only: at most one entry each, two for
    [isMovieClassic], none for [getAllowedGenres]. *)
Theorem accessors_never_mutate
    (G : value) (s : state) (v : value) (k : string) (tag : value) :
  (hasPropertyOfType v k tag s).2 = s ∧
  (st_heap (getMovieTitle v s).2 = st_heap s ∧
   ∃ n : nat, (n ≤ 1)%nat ∧ console_grew ConsoleLog n s (getMovieTitle v s).2) ∧
  (st_heap (getMovieYear v s).2 = st_heap s ∧
   ∃ n : nat, (n ≤ 1)%nat ∧ console_grew ConsoleLog n s (getMovieYear v s).2) ∧
  (st_heap (isMovieClassic v s).2 = st_heap s ∧
   ∃ n : nat, (n ≤ 2)%nat ∧ console_grew ConsoleLog n s (isMovieClassic v s).2) ∧
  (objects_kept s (getMovieKeys v s).2 ∧
   ∃ n : nat, (n ≤ 1)%nat ∧ console_grew ConsoleLog n s (getMovieKeys v s).2) ∧
  (objects_kept s (getMoviePropertiesCount v s).2 ∧
   ∃ n : nat, (n ≤ 1)%nat ∧ console_grew ConsoleLog n s (getMoviePropertiesCount v s).2) ∧
  (objects_kept s (getAllowedGenres G s).2 ∧
   st_console (getAllowedGenres G s).2 = st_console s).
Proof.
  pose proof (console_grew_0 ConsoleLog s) as H0.
  pose proof (console_grew_logged ConsoleLog 0 title_msg s s H0) as Ht.
  pose proof (console_grew_logged ConsoleLog 0 year_msg s s H0) as Hy.
  pose proof (console_grew_logged ConsoleLog 0 classic_msg s s H0) as Hc.
  pose proof (console_grew_logged ConsoleLog 1 classic_msg s _ Hy) as Hyc.
  pose proof (console_grew_logged ConsoleLog 0 keys_msg s s H0) as Hk.
  pose proof (console_grew_logged ConsoleLog 0 count_msg s s H0) as Hn.
  destruct (live_or_dangling (st_heap s) v) as [Hlive|(l & -> & Hl)].
  - split; [by rewrite hasPropertyOfType_eval|].
    split.
    { rewrite (getMovieTitle_eval _ _ Hlive).
      destruct (own_property _ _ _) as [[]|]; split; eauto. }
    split.
    { rewrite (getMovieYear_eval _ _ Hlive).
      destruct (own_property _ _ _) as [[]|]; split; eauto. }
    split.
    { rewrite (isMovieClassic_eval _ _ Hlive).
      destruct (own_property _ _ _) as [[| |b|y|str|z|id|l]|];
        try destruct (PrimFloat.eqb y 0); split; eauto. }
    split.
    { destruct (is_object (st_heap s) v) eqn:Hobj.
      - destruct v as [| | | | | | |l]; try done. destruct Hlive as [o Hl].
        rewrite (getMovieKeys_object _ _ _ Hl Hobj).
        split; [by apply objects_kept_updated_fresh|eauto].
      - rewrite (getMovieKeys_invalid _ _ Hobj).
        split;
          [by apply (objects_kept_updated_fresh _ s (logged ConsoleLog keys_msg s))|].
        exists 1. split; [done|]. exact Hk. }
    split.
    { destruct (is_object (st_heap s) v) eqn:Hobj.
      - destruct v as [| | | | | | |l]; try done. destruct Hlive as [o Hl].
        rewrite (getMoviePropertiesCount_object _ _ _ Hl Hobj).
        split; [by apply objects_kept_updated_fresh|eauto].
      - rewrite (getMoviePropertiesCount_invalid _ _ Hobj).
        split; [by intros ? ?|eauto]. }
    apply getAllowedGenres_kept.
  - destruct (accessors_dangling _ _ Hl) as (Et & Ey & Ec & En).
    rewrite (hasPropertyOfType_dangling _ _ _ _ Hl), Et, Ey, Ec, En,
      (getMovieKeys_dangling _ _ Hl).
    pose proof (objects_kept_refl s) as Hkept.
    repeat split; eauto. apply getAllowedGenres_kept. apply getAllowedGenres_kept.
Qed.

(** ** What one call can do to the heap *)

Lemma obj_get_own_set_named_ne k k' v o :
  named_key k → named_key k' → k ≠ k' →
  obj_get_own k' (set_named k v o) = obj_get_own k' o.
Proof.
  intros Hk Hk' Hne. rewrite !(obj_get_own_named _ _ Hk'). simpl.
  by apply assoc_get_set_ne.
Qed.

Lemma obj_get_own_del_named_ne k k' o :
  named_key k → named_key k' → k ≠ k' →
  obj_get_own k' (del_named k o) = obj_get_own k' o.
Proof.
  intros Hk Hk' Hne. rewrite !(obj_get_own_named _ _ Hk'). simpl.
  by apply assoc_get_del_ne.
Qed.

Lemma obj_get_own_pushed_named k v o :
  named_key k → obj_get_own k (pushed v o) = obj_get_own k o.
Proof. intros Hk. by rewrite !(obj_get_own_named _ _ Hk). Qed.




Lemma mutated_proto o o' : mutated o o' → o_proto o' = o_proto o.
Proof. by intros []. Qed.


Lemma mutated_rating_valid o o' v :
  mutated o o' → obj_get_own "rating" o' = Some v →
  valid_rating v = true ∨ obj_get_own "rating" o = Some v.
Proof.
  intros Hm Hv. destruct Hm as [o w Hw|o w Hw|o|o w Ha Hs].
  - left. rewrite obj_get_own_set_named in Hv; [|apply named_rating].
    congruence.
  - right. rewrite obj_get_own_set_named_ne in Hv;
      [done|apply named_genre|apply named_rating|done].
  - right. rewrite obj_get_own_del_named_ne in Hv;
      [done|apply named_director|apply named_rating|done].
  - right. by rewrite obj_get_own_pushed_named in Hv; [|apply named_rating].
Qed.

Lemma mutated_genre_allowed o o' v :
  mutated o o' → obj_get_own "genre" o' = Some v →
  allowed_genre v = true ∨ obj_get_own "genre" o = Some v.
Proof.
  intros Hm Hv. destruct Hm as [o w Hw|o w Hw|o|o w Ha Hs].
  - right. rewrite obj_get_own_set_named_ne in Hv;
      [done|apply named_rating|apply named_genre|done].
  - left. rewrite obj_get_own_set_named in Hv; [|apply named_genre].
    congruence.
  - right. rewrite obj_get_own_del_named_ne in Hv;
      [done|apply named_director|apply named_genre|done].
  - right. by rewrite obj_get_own_pushed_named in Hv; [|apply named_genre].
Qed.

Lemma heap_step_same s s' : st_heap s' = st_heap s → heap_step s s'.
Proof. by left. Qed.

Lemma heap_step_updated s l o o' :
  st_heap s !! l = Some o → mutated o o' → heap_step s (updated l o' s).
Proof. intros Hl Hm. right. by exists l, o, o'. Qed.

Lemma stored_heap_step l o k v s :
  st_heap s !! l = Some o → mutated o (set_named k v o) →
  heap_step s (stored l o k v s).2.
Proof.
  intros Hl Hm. unfold stored. destruct (may_assign _ _ _);
    try by apply heap_step_same.
  by apply (heap_step_updated _ _ o).
Qed.

Lemma setMovieRating_heap_step s movie arg :
  heap_step s (setMovieRating movie arg s).2.
Proof.
  rewrite setMovieRating_eval.
  destruct (to_boolean movie) eqn:Hm; [|by apply heap_step_same].
  destruct (valid_rating arg) eqn:Hv; [|by apply heap_step_same]. simpl.
  destruct movie as [| | | | | | |l]; try by apply heap_step_same.
  destruct (st_heap s !! l) as [o|] eqn:Hl; [|by apply heap_step_same].
  apply stored_heap_step; [done|by constructor].
Qed.

Lemma addMovieGenre_heap_step G s movie arg :
  genres_intact G s → heap_step s (addMovieGenre G movie arg s).2.
Proof.
  intros HG. rewrite (addMovieGenre_eval _ _ _ _ HG).
  destruct (to_boolean movie) eqn:Hm; [|by apply heap_step_same].
  destruct (allowed_genre arg) eqn:Hv; [|by apply heap_step_same]. simpl.
  destruct movie as [| | | | | | |l]; try by apply heap_step_same.
  destruct (st_heap s !! l) as [o|] eqn:Hl; [|by apply heap_step_same].
  apply stored_heap_step; [done|by constructor].
Qed.

Lemma removeDirectorProperty_heap_step s movie :
  heap_step s (removeDirectorProperty movie s).2.
Proof.
  destruct (removeDirectorProperty_cases s movie)
    as [->|[(l & o & -> & Hl & _ & _ & _ & ->)|[->| ->]]];
    try by apply heap_step_same.
  apply (heap_step_updated _ _ o); [done|constructor].
Qed.

Lemma addCastMember_heap_step s movie arg :
  heap_step s (addCastMember movie arg s).2.
Proof.
  destruct (addCastMember_cases s movie arg)
    as [Hh|(c & oc & Hcast & _ & _ & Hx & ->)]; [by left|].
  destruct Hcast as (l & o & _ & _ & _ & Hoc & Ha).
  apply (heap_step_updated _ _ oc); [done|by constructor].
Qed.

Lemma heap_step_lookup s s' l o' :
  heap_step s s' → st_heap s' !! l = Some o' →
  ∃ o, st_heap s !! l = Some o ∧ (o' = o ∨ mutated o o').
Proof.
  intros [Hh|(l0 & o0 & o0' & Hl0 & Hm & Hh)] Hl; rewrite Hh in Hl.
  - exists o'. auto.
  - destruct (decide (l0 = l)) as [->|Hne].
    + rewrite lookup_insert_eq in Hl. injection Hl as <-. eauto.
    + rewrite lookup_insert_ne in Hl; [|done]. eauto.
Qed.


(** ** The mutation functions store only valid ratings and genres *)

Lemma heap_step_values_valid s s' l o' v :
  heap_step s s' → st_heap s' !! l = Some o' →
  (obj_get_own "rating" o' = Some v →
     valid_rating v = true ∨
     ∃ o, st_heap s !! l = Some o ∧ obj_get_own "rating" o = Some v) ∧
  (obj_get_own "genre" o' = Some v →
     allowed_genre v = true ∨
     ∃ o, st_heap s !! l = Some o ∧ obj_get_own "genre" o = Some v).
Proof.
  intros Hstep Hl.
  destruct (heap_step_lookup _ _ _ _ Hstep Hl) as (o & Ho & [->|Hm]).
  - split; intros Hv; right; eauto.
  - split; intros Hv.
    + destruct (mutated_rating_valid _ _ _ Hm Hv); eauto.
    + destruct (mutated_genre_allowed _ _ _ Hm Hv); eauto.
Qed.

(** X6.  With the module loaded, whatever the arguments: after a call of
    any of the four mutation functions, the [rating] of every object in the
    heap is either the value it had before the call or a number in
    [0, 10], and its [genre] is either the value it had before or one of
    the six allowed names.  No call ever stores an invalid rating or genre,
    on the record passed or on any other object. *)
Theorem mutators_store_only_valid_values
    (G : value) (s : state) (movie arg : value)
    (l : loc) (o' : obj) (v : value) :
  genres_intact G s →
  ∀ s', s' = (setMovieRating movie arg s).2 ∨
        s' = (addMovieGenre G movie arg s).2 ∨
        s' = (removeDirectorProperty movie s).2 ∨
        s' = (addCastMember movie arg s).2 →
  st_heap s' !! l = Some o' →
  (obj_get_own "rating" o' = Some v →
     valid_rating v = true ∨
     ∃ o, st_heap s !! l = Some o ∧ obj_get_own "rating" o = Some v) ∧
  (obj_get_own "genre" o' = Some v →
     allowed_genre v = true ∨
     ∃ o, st_heap s !! l = Some o ∧ obj_get_own "genre" o = Some v).
Proof.
  intros HG s' Hs'. apply heap_step_values_valid.
  destruct Hs' as [->|[->|[->| ->]]].
  - apply setMovieRating_heap_step.
  - by apply addMovieGenre_heap_step.
  - apply removeDirectorProperty_heap_step.
  - apply addCastMember_heap_step.
Qed.

Lemma mutators_store_only_valid_values_witness :
  valid_rating (VNum 9.5) = true ∨
  ∃ o, st_heap toy_state !! 2 = Some o ∧
       obj_get_own "rating" o = Some (VNum 9.5).
Proof.
  refine (proj1 (mutators_store_only_valid_values (VRef 0) toy_state (VRef 2)
           (VNum 9.5) 2 (set_named "rating" (VNum 9.5) toy_story) (VNum 9.5)
           toy_state_genres_intact
           (setMovieRating (VRef 2) (VNum 9.5) toy_state).2 _ _) _).
  - by left.
  - reflexivity.
  - reflexivity.
Defined.

(** ** The mutation functions leave title and year alone *)








(** ** The module's own array stays private and intact *)

Lemma objects_kept_genres_intact G s s' :
  objects_kept s s' → genres_intact G s → genres_intact G s'.
Proof. intros Hk (g & -> & Hg). exists g. split; [done|]. by apply Hk. Qed.

Lemma objects_kept_same_heap s s' : st_heap s' = st_heap s → objects_kept s s'.
Proof. intros Hh l o. by rewrite Hh. Qed.

Lemma accessors_keep_objects s v k tag :
  objects_kept s (hasPropertyOfType v k tag s).2 ∧
  objects_kept s (getMovieTitle v s).2 ∧
  objects_kept s (getMovieYear v s).2 ∧
  objects_kept s (isMovieClassic v s).2 ∧
  objects_kept s (getMovieKeys v s).2 ∧
  objects_kept s (getMoviePropertiesCount v s).2.
Proof.
  destruct (live_or_dangling (st_heap s) v) as [Hlive|(l & -> & Hl)].
  - rewrite hasPropertyOfType_eval, getMovieTitle_eval, getMovieYear_eval,
      isMovieClassic_eval by done.
    split; [apply objects_kept_refl|].
    split;
      [destruct (own_property _ _ "title") as [[]|];
       by apply objects_kept_same_heap|].
    split;
      [destruct (own_property _ _ "year") as [[]|];
       by apply objects_kept_same_heap|].
    split.
    { destruct (own_property _ _ "year") as [[| |b|y|str|z|id|l]|];
        try destruct (PrimFloat.eqb y 0); by apply objects_kept_same_heap. }
    destruct (is_object (st_heap s) v) eqn:Hobj.
    + destruct v as [| | | | | | |l]; try done. destruct Hlive as [o Hl].
      rewrite (getMovieKeys_object _ _ _ Hl Hobj),
        (getMoviePropertiesCount_object _ _ _ Hl Hobj).
      split; by apply objects_kept_updated_fresh.
    + rewrite (getMovieKeys_invalid _ _ Hobj),
        (getMoviePropertiesCount_invalid _ _ Hobj).
      split; [|by apply objects_kept_same_heap].
      by apply (objects_kept_updated_fresh _ s (logged ConsoleLog keys_msg s)).
  - destruct (accessors_dangling _ _ Hl) as (Et & Ey & Ec & En).
    rewrite (hasPropertyOfType_dangling _ _ _ _ Hl), Et, Ey, Ec, En,
      (getMovieKeys_dangling _ _ Hl).
    repeat split; apply objects_kept_refl.
Qed.

Lemma genres_intact_updated G s l o :
  genres_intact G s → G ≠ VRef l → genres_intact G (updated l o s).
Proof.
  intros (g & -> & Hg) Hne. exists g. split; [done|]. simpl.
  rewrite lookup_insert_ne; [done|congruence].
Qed.

Lemma genres_intact_same_heap G s s' :
  genres_intact G s → st_heap s' = st_heap s → genres_intact G s'.
Proof. intros (g & -> & Hg) Hh. exists g. by rewrite Hh. Qed.

Lemma genres_intact_stored G s l o k v :
  genres_intact G s → G ≠ VRef l → genres_intact G (stored l o k v s).2.
Proof.
  intros HG Hne. unfold stored. destruct (may_assign _ _ _); try done.
  by apply genres_intact_updated.
Qed.

(** X8.  Loading the module allocates its genre array at a fresh reference
    without touching any existing object or the console, and from then on
    the array stays as built: every accessor and [getAllowedGenres] keeps it
    intact and never returns a reference to it, and every mutation function
    keeps it intact as long as the caller passes neither the array itself
    nor a record whose [cast] is the array. *)
Theorem module_array_stays_intact
    (G : value) (s : state) (movie arg v : value) (k : string) (tag : value) :
  (∃ l, module_init s = (Normal (VRef l), updated l (array_from (VStr <$> genre_names)) s) ∧
        st_heap s !! l = None ∧
        genres_intact (VRef l) (module_init s).2) ∧
  (genres_intact G s →
     genres_intact G (hasPropertyOfType v k tag s).2 ∧
     genres_intact G (getMovieTitle v s).2 ∧
     genres_intact G (getMovieYear v s).2 ∧
     genres_intact G (isMovieClassic v s).2 ∧
     genres_intact G (getMovieKeys v s).2 ∧
     genres_intact G (getMoviePropertiesCount v s).2 ∧
     genres_intact G (getAllowedGenres G s).2 ∧
     (getMovieTitle v s).1 ≠ Normal G ∧
     (getMovieYear v s).1 ≠ Normal G ∧
     (isMovieClassic v s).1 ≠ Normal G ∧
     (getMovieKeys v s).1 ≠ Normal G ∧
     (getMoviePropertiesCount v s).1 ≠ Normal G ∧
     (getAllowedGenres G s).1 ≠ Normal G) ∧
  (genres_intact G s → movie ≠ G → cast_of (st_heap s) movie ≠ G →
     genres_intact G (setMovieRating movie arg s).2 ∧
     genres_intact G (addMovieGenre G movie arg s).2 ∧
     genres_intact G (removeDirectorProperty movie s).2 ∧
     genres_intact G (addCastMember movie arg s).2).
Proof.
  split; [|split].
  - exists (next_loc s). split; [apply module_init_eval|].
    split; [apply next_loc_fresh|].
    by apply (module_init_intact s).
  - intros HG.
    destruct (accessors_keep_objects s v k tag) as (K1 & K2 & K3 & K4 & K5 & K6).
    destruct (getAllowedGenres_kept G s) as [K7 _].
    repeat (split; [by eapply objects_kept_genres_intact|]).
    pose proof HG as (g & -> & Hg).
    assert (VRef (next_loc s) ≠ VRef g) as Hfresh.
    { intros [= Heq]. pose proof (next_loc_fresh s) as Hf. congruence. }
    destruct (live_or_dangling (st_heap s) v) as [Hlive|(l & -> & Hl)].
    + rewrite getMovieTitle_eval, getMovieYear_eval, isMovieClassic_eval
        by done.
      split; [by destruct (own_property _ _ "title") as [[]|]|].
      split; [by destruct (own_property _ _ "year") as [[]|]|].
      split.
      { destruct (own_property _ _ "year") as [[| |b|y|str|z|id|l]|]; try done.
        by destruct (PrimFloat.eqb y 0). }
      rewrite (getAllowedGenres_eval _ _ HG).
      destruct (is_object (st_heap s) v) eqn:Hobj.
      * destruct v as [| | | | | | |l]; try done. destruct Hlive as [o Hl].
        rewrite (getMovieKeys_object _ _ _ Hl Hobj),
          (getMoviePropertiesCount_object _ _ _ Hl Hobj).
        simpl. repeat split; congruence.
      * rewrite (getMovieKeys_invalid _ _ Hobj),
          (getMoviePropertiesCount_invalid _ _ Hobj).
        simpl. repeat split; congruence.
    + destruct (accessors_dangling _ _ Hl) as (Et & Ey & Ec & En).
      rewrite Et, Ey, Ec, En, (getMovieKeys_dangling _ _ Hl),
        (getAllowedGenres_eval _ _ HG).
      simpl. repeat split; congruence.
  - intros HG Hmovie Hcast. split; [|split; [|split]].
    + rewrite setMovieRating_eval. destruct (_ && _); [|done].
      destruct movie as [| | | | | | |l]; try done.
      destruct (st_heap s !! l); [|done]. by apply genres_intact_stored.
    + rewrite (addMovieGenre_eval _ _ _ _ HG). destruct (_ && _); [|done].
      destruct movie as [| | | | | | |l]; try done.
      destruct (st_heap s !! l); [|done]. by apply genres_intact_stored.
    + destruct (removeDirectorProperty_cases s movie)
        as [->|[(l & o & -> & Hl & _ & _ & _ & ->)|[->| ->]]]; try done.
      by apply genres_intact_updated.
    + destruct (addCastMember_cases s movie arg)
        as [Hh|(c & oc & Hc & _ & _ & _ & ->)];
        [by apply (genres_intact_same_heap _ s)|].
      apply genres_intact_updated; [done|].
      by rewrite <- (cast_of_cast_array _ _ _ _ Hc).
Qed.

Lemma module_array_stays_intact_witness :
  genres_intact (VRef 0)
    (addCastMember (VRef 2) (VStr "Joan Cusack") toy_state).2 ∧
  genres_intact (VRef 0) (getMovieKeys (VRef 2) toy_state).2.
Proof.
  destruct (module_array_stays_intact (VRef 0) toy_state (VRef 2)
              (VStr "Joan Cusack") (VRef 2) "title" VUndefined)
    as (_ & Hacc & Hmut).
  destruct (Hacc toy_state_genres_intact) as (_ & _ & _ & _ & Hkeys & _).
  destruct (Hmut toy_state_genres_intact) as (_ & _ & _ & Hcast);
    [discriminate|discriminate|].
  by split.
Defined.

(** ** Repeated and interleaved assignments *)

Lemma assoc_set_set k v1 v2 ps :
  assoc_set k v2 (assoc_set k v1 ps) = assoc_set k v2 ps.
Proof.
  induction ps as [|[k' v'] ps IH]; simpl.
  - by rewrite String.eqb_refl.
  - destruct (String.eqb k' k) eqn:E; simpl; rewrite E; [done|]. by rewrite IH.
Qed.

Lemma assoc_set_comm k1 k2 v1 v2 ps :
  k1 ≠ k2 → is_Some (assoc_get k1 ps) ∨ is_Some (assoc_get k2 ps) →
  assoc_set k1 v1 (assoc_set k2 v2 ps) = assoc_set k2 v2 (assoc_set k1 v1 ps).
Proof.
  intros Hne. induction ps as [|[k' v'] ps IH]; simpl.
  - by intros [[? ?]|[? ?]].
  - intros Hsome. simpl in Hsome.
    destruct (String.eqb k' k2) eqn:E2; destruct (String.eqb k' k1) eqn:E1;
      simpl; rewrite ?E1, ?E2; simpl; rewrite ?E1, ?E2; try done.
    + apply String.eqb_eq in E1, E2. congruence.
    + f_equal. by apply IH.
Qed.

Lemma set_named_set_named k v1 v2 o :
  set_named k v2 (set_named k v1 o) = set_named k v2 o.
Proof.
  unfold set_named, after_set. simpl.
  by rewrite assoc_set_set, assoc_get_set_eq.
Qed.

Lemma updated_updated l o1 o2 s :
  updated l o2 (updated l o1 s) = updated l o2 s.
Proof. unfold updated. simpl. by rewrite insert_insert_eq. Qed.

Lemma may_assign_accept_writable h k o :
  may_assign h k o = Accept →
  is_readonly k o = false ∨ obj_get_own k o = None.
Proof.
  unfold may_assign. destruct (obj_get_own k o); [|by right].
  destruct (is_readonly k o); [done|by left].
Qed.

(** Once accepted, an assignment to the same property is accepted again. *)
Lemma may_assign_set_named h l o k v :
  named_key k → may_assign h k o = Accept →
  may_assign (<[l := set_named k v o]> h) k (set_named k v o) = Accept.
Proof.
  intros Hk Hacc. unfold may_assign.
  rewrite (obj_get_own_set_named _ _ _ Hk).
  rewrite is_readonly_set_named; [done|done|].
  by apply (may_assign_accept_writable h).
Qed.

(** An assignment to one property does not change the verdict on
    another. *)
Lemma may_assign_set_named_ne h l o k k' v :
  h !! l = Some o → named_key k → named_key k' → k ≠ k' →
  may_assign (<[l := set_named k v o]> h) k' (set_named k v o)
  = may_assign h k' o.
Proof.
  intros Hl Hk Hk' Hne. apply may_assign_replaced; try done.
  - by apply obj_get_own_set_named_ne.
  - unfold is_readonly. simpl. by apply has_key_after_set_ne.
Qed.

Lemma stored_twice l o k v1 v2 s :
  st_heap s !! l = Some o → named_key k →
  match st_heap (stored l o k v1 s).2 !! l with
  | Some o1 => stored l o1 k v2 (stored l o k v1 s).2
  | None => (Outside, (stored l o k v1 s).2)
  end = stored l o k v2 s.
Proof.
  intros Hl Hk. unfold stored at 1 3.
  destruct (may_assign (st_heap s) k o) eqn:Hma; simpl; rewrite ?Hl; [|done..].
  rewrite lookup_insert_eq. unfold stored. simpl.
  rewrite (may_assign_set_named _ _ _ _ _ Hk Hma), Hma.
  by rewrite set_named_set_named, updated_updated.
Qed.

(** X9.  With the module loaded, on a record other than the module's own
    array: two valid [setMovieRating] calls in a row leave exactly the state
    that the second call alone would leave, and likewise for two accepted
    [addMovieGenre] calls; in particular repeating a call with the same
    argument changes nothing further.  The earlier value is overwritten in
    place, never accumulated. *)
Theorem last_valid_write_wins
    (G : value) (s : state) (l : loc) (o : obj) (v1 v2 : value) :
  genres_intact G s →
  G ≠ VRef l →
  st_heap s !! l = Some o →
  (valid_rating v1 = true → valid_rating v2 = true →
     setMovieRating (VRef l) v2 (setMovieRating (VRef l) v1 s).2
       = setMovieRating (VRef l) v2 s) ∧
  (allowed_genre v1 = true → allowed_genre v2 = true →
     addMovieGenre G (VRef l) v2 (addMovieGenre G (VRef l) v1 s).2
       = addMovieGenre G (VRef l) v2 s).
Proof.
  intros HG Hne Hl. split; intros H1 H2.
  - rewrite (setMovieRating_eval s), H1, Hl. simpl.
    rewrite setMovieRating_eval, H2. simpl.
    rewrite (stored_twice _ _ _ _ _ _ Hl named_rating).
    by rewrite setMovieRating_eval, H2, Hl.
  - rewrite (addMovieGenre_eval _ s _ _ HG), H1, Hl. simpl.
    rewrite (addMovieGenre_eval _ (stored _ _ _ _ _).2);
      [|by apply genres_intact_stored].
    rewrite H2. simpl.
    rewrite (stored_twice _ _ _ _ _ _ Hl named_genre).
    by rewrite (addMovieGenre_eval _ s _ _ HG), H2, Hl.
Qed.

Lemma last_valid_write_wins_witness :
  setMovieRating (VRef 2) (VNum 7) (setMovieRating (VRef 2) (VNum 9.5) toy_state).2
    = setMovieRating (VRef 2) (VNum 7) toy_state.
Proof.
  destruct (last_valid_write_wins (VRef 0) toy_state 2 toy_story (VNum 9.5)
              (VNum 7) toy_state_genres_intact) as [Hrating _];
    [discriminate|reflexivity|].
  apply Hrating; reflexivity.
Defined.
Lemma obj_get_own_same_named o1 o2 k :
  o_class o1 = o_class o2 → o_elems o1 = o_elems o2 →
  assoc_get k (o_named o1) = assoc_get k (o_named o2) →
  obj_get_own k o1 = obj_get_own k o2.
Proof.
  intros Hc He Hn. unfold obj_get_own, is_array_obj. by rewrite Hc, He, Hn.
Qed.

Lemma assoc_get_set k k' v ps :
  assoc_get k' (assoc_set k v ps)
  = if String.eqb k k' then Some v else assoc_get k' ps.
Proof.
  destruct (String.eqb_spec k k') as [->|Hne].
  - apply assoc_get_set_eq.
  - by apply assoc_get_set_ne.
Qed.

Lemma after_set_comm k1 k2 v1 v2 o ks :
  k1 ≠ k2 →
  after_set k2 (set_named k1 v1 o) (after_set k1 o ks)
  = after_set k1 (set_named k2 v2 o) (after_set k2 o ks).
Proof.
  intros Hne. unfold after_set. simpl.
  rewrite (assoc_get_set_ne k1 k2), (assoc_get_set_ne k2 k1) by done.
  destruct (assoc_get k1 (o_named o)), (assoc_get k2 (o_named o)); try done.
  apply remove_key_comm.
Qed.

(** X10.  With the module loaded, on a record other than the module's own
    array on which the assignments to [rating] and to [genre] are both
    accepted, a valid [setMovieRating] and an accepted [addMovieGenre] can
    be called in either order: both calls return in both orders, and both
    orders leave the same value under every property key.  When the record
    already had a [rating] or a [genre] the two final states are equal; when
    it had neither, they differ only in the enumeration order of the two
    new keys, which follows the order of the calls. *)
Theorem rating_and_genre_commute
    (G : value) (s : state) (l : loc) (o : obj) (r g : value) :
  genres_intact G s →
  G ≠ VRef l →
  st_heap s !! l = Some o →
  valid_rating r = true →
  allowed_genre g = true →
  may_assign (st_heap s) "rating" o = Accept →
  may_assign (st_heap s) "genre" o = Accept →
  ∃ o12 o21,
    addMovieGenre G (VRef l) g (setMovieRating (VRef l) r s).2
      = (Normal (VRef l), updated l o12 s) ∧
    setMovieRating (VRef l) r (addMovieGenre G (VRef l) g s).2
      = (Normal (VRef l), updated l o21 s) ∧
    (∀ k, obj_get_own k o12 = obj_get_own k o21) ∧
    (is_Some (obj_get_own "rating" o) ∨ is_Some (obj_get_own "genre" o) →
     o12 = o21) ∧
    (obj_get_own "rating" o = None → obj_get_own "genre" o = None →
     own_keys o12 = own_keys o ++ ["rating"; "genre"] ∧
     own_keys o21 = own_keys o ++ ["genre"; "rating"]).
Proof.
  intros HG Hne Hl Hr Hg Har Hag.
  exists (set_named "genre" g (set_named "rating" r o)),
         (set_named "rating" r (set_named "genre" g o)).
  split.
  { rewrite setMovieRating_eval, Hr, Hl. simpl. unfold stored.
    rewrite Har. simpl.
    rewrite (addMovieGenre_eval _ (updated _ _ _));
      [|by apply genres_intact_updated].
    rewrite Hg. simpl. rewrite lookup_insert_eq. unfold stored. simpl.
    rewrite may_assign_set_named_ne, Hag;
      [|done|apply named_rating|apply named_genre|done].
    by rewrite updated_updated. }
  split.
  { rewrite (addMovieGenre_eval _ s _ _ HG), Hg, Hl. simpl. unfold stored.
    rewrite Hag. simpl.
    rewrite setMovieRating_eval, Hr. simpl. rewrite lookup_insert_eq.
    unfold stored. simpl.
    rewrite may_assign_set_named_ne, Har;
      [|done|apply named_genre|apply named_rating|done].
    by rewrite updated_updated. }
  split.
  { intros k. apply obj_get_own_same_named; [done|done|]. simpl.
    rewrite !assoc_get_set.
    destruct (String.eqb_spec "genre" k) as [<-|]; [done|].
    by destruct (String.eqb_spec "rating" k). }
  split.
  { rewrite !(obj_get_own_named _ _ named_rating),
      !(obj_get_own_named _ _ named_genre).
    intros Hsome. unfold set_named at 1 3. f_equal; try done.
    - simpl. apply assoc_set_comm; [done|tauto].
    - by apply after_set_comm.
    - by apply after_set_comm. }
  rewrite !(obj_get_own_named _ _ named_rating),
    !(obj_get_own_named _ _ named_genre).
  intros Hnr Hng. unfold own_keys. simpl.
  rewrite !assoc_set_keys_absent; try done.
  - by rewrite <- !app_assoc.
  - by rewrite assoc_get_set_ne.
  - by rewrite assoc_get_set_ne.
Qed.

Lemma rating_and_genre_commute_witness :
  addMovieGenre (VRef 0) (VRef 2) (VStr "Family")
     (setMovieRating (VRef 2) (VNum 9.5) toy_state).2
  = (Normal (VRef 2),
     (setMovieRating (VRef 2) (VNum 9.5)
        (addMovieGenre (VRef 0) (VRef 2) (VStr "Family") toy_state).2).2).
Proof.
  destruct (rating_and_genre_commute (VRef 0) toy_state 2 toy_story (VNum 9.5)
              (VStr "Family") toy_state_genres_intact)
    as (o12 & o21 & -> & -> & _ & Heq & _);
    [discriminate|reflexivity|reflexivity|reflexivity|reflexivity|reflexivity|].
  rewrite Heq; [reflexivity|]. left. by eexists.
Defined.

(** ** What the validation module sees after a mutation *)

Lemma own_property_updated s l o k :
  o_class o ≠ CFunction →
  own_property (st_heap (updated l o s)) (VRef l) k = obj_get_own k o.
Proof.
  intros Hc. unfold own_property. simpl. rewrite lookup_insert_eq.
  by destruct (o_class o).
Qed.

(** X11.  With the module loaded, on a record [o] (a live, non-callable
    object): after a valid [setMovieRating] whose assignment is accepted the
    validation module finds a [rating] of type number on the record; after
    an accepted [addMovieGenre] whose assignment is accepted it finds a
    [genre] of type string; and after a [removeDirectorProperty] that
    returns, on a record whose [hasOwnProperty] is the built-in method, it
    finds no [director] of any type. *)
Theorem mutations_visible_to_hasPropertyOfType
    (G : value) (s : state) (l : loc) (o : obj) (arg tag : value) :
  genres_intact G s →
  st_heap s !! l = Some o →
  o_class o ≠ CFunction →
  (valid_rating arg = true → may_assign (st_heap s) "rating" o = Accept →
     (hasPropertyOfType (VRef l) "rating" (VStr "number")
        (setMovieRating (VRef l) arg s).2).1 = Normal true) ∧
  (allowed_genre arg = true → may_assign (st_heap s) "genre" o = Accept →
     (hasPropertyOfType (VRef l) "genre" (VStr "string")
        (addMovieGenre G (VRef l) arg s).2).1 = Normal true) ∧
  (resolve (st_heap s) "hasOwnProperty" o = Some RHasOwnProperty →
   obj_has_own "director" o = false ∨ is_fixed "director" o = false →
     (hasPropertyOfType (VRef l) "director" tag
        (removeDirectorProperty (VRef l) s).2).1 = Normal false).
Proof.
  intros HG Hl Hc. split; [|split].
  - intros Hv Hacc. rewrite setMovieRating_eval, Hv, Hl. simpl.
    unfold stored. rewrite Hacc. simpl.
    rewrite hasPropertyOfType_eval by (eexists; apply lookup_insert_eq).
    rewrite own_property_updated by done.
    rewrite obj_get_own_set_named by apply named_rating.
    cbn [fst]. rewrite typeof_number. by destruct arg.
  - intros Hv Hacc. rewrite (addMovieGenre_eval _ _ _ _ HG), Hv, Hl. simpl.
    unfold stored. rewrite Hacc. simpl.
    rewrite hasPropertyOfType_eval by (eexists; apply lookup_insert_eq).
    rewrite own_property_updated by done.
    rewrite obj_get_own_set_named by apply named_genre.
    cbn [fst]. rewrite typeof_string. by destruct arg.
  - intros Hres Hok. rewrite (removeDirectorProperty_builtin _ _ _ Hl Hres).
    unfold removed.
    destruct (obj_has_own "director" o) eqn:Hd.
    + destruct Hok as [|Hf]; [done|]. rewrite Hf. simpl snd.
      rewrite hasPropertyOfType_eval by (eexists; apply lookup_insert_eq).
      rewrite own_property_updated by done.
      pose proof (obj_has_own_del_named "director" o named_director) as Hgone.
      unfold obj_has_own in Hgone.
      by destruct (obj_get_own "director" (del_named "director" o)).
    + simpl snd. rewrite hasPropertyOfType_eval by (by eexists).
      assert (own_property (st_heap (logged ConsoleError director_msg s))
                (VRef l) "director" = None) as ->; [|done].
      unfold own_property. simpl. rewrite Hl. unfold obj_has_own in Hd.
      destruct (o_class o); try done;
        by destruct (obj_get_own "director" o).
Qed.

Lemma mutations_visible_to_hasPropertyOfType_witness :
  (hasPropertyOfType (VRef 2) "rating" (VStr "number")
     (setMovieRating (VRef 2) (VNum 9.5) toy_state).2).1 = Normal true ∧
  (hasPropertyOfType (VRef 2) "director" (VStr "string")
     (removeDirectorProperty (VRef 2) toy_state).2).1 = Normal false.
Proof.
  assert (Hclass : o_class toy_story ≠ CFunction) by discriminate.
  destruct (mutations_visible_to_hasPropertyOfType (VRef 0) toy_state 2
              toy_story (VNum 9.5) (VStr "string") toy_state_genres_intact
              eq_refl Hclass) as (Hrating & _ & Hdirector).
  split; [apply Hrating; reflexivity|apply Hdirector; [reflexivity|by right]].
Defined.

(** ** Enumeration order and property count after a mutation *)







(** ** A cast array shared between records *)













(** ** The listed genres are the accepted ones *)

Lemma logged_not_updated c msg l o s :
  logged c msg s ≠ updated l o s.
Proof.
  unfold logged, updated. intros [= _ Hc].
  apply (f_equal length) in Hc. rewrite length_app in Hc. simpl in Hc. lia.
Qed.

Lemma logged_not_same c msg s : logged c msg s ≠ s.
Proof.
  destruct s as [h out]. unfold logged. simpl. intros [= Hc].
  apply (f_equal length) in Hc. rewrite length_app in Hc. simpl in Hc. lia.
Qed.

(** X14.  With the module loaded, the array [getAllowedGenres] returns lists
    exactly the values [addMovieGenre] accepts: for every value [v] and
    every record, [v] is not an element of the returned array if and only
    if a following [addMovieGenre] with [v] logs the error and leaves the
    record alone; and [v] is an element if and only if that call assigns:
    it stores [v] as the record's [genre] when the assignment is accepted,
    and raises a [TypeError] when the assignment is refused. *)
Theorem getAllowedGenres_lists_accepted_genres
    (G : value) (s : state) (l : loc) (o : obj) (v : value) :
  genres_intact G s →
  st_heap s !! l = Some o →
  ∃ a oa s1,
    getAllowedGenres G s = (Normal (VRef a), s1) ∧
    st_heap s1 !! a = Some oa ∧
    st_heap s1 !! l = Some o ∧
    (v ∉ elements oa ↔
     addMovieGenre G (VRef l) v s1
       = (Normal (VRef l), logged ConsoleError genre_msg s1)) ∧
    (may_assign (st_heap s) "genre" o = Accept →
     (v ∈ elements oa ↔
      addMovieGenre G (VRef l) v s1
        = (Normal (VRef l), updated l (set_named "genre" v o) s1))) ∧
    (may_assign (st_heap s) "genre" o = Refuse →
     (v ∈ elements oa ↔
      addMovieGenre G (VRef l) v s1 = (Throw TypeError, s1))).
Proof.
  intros HG Hl. pose proof (next_loc_fresh s) as Hfresh.
  assert (l ≠ next_loc s) as Hne by congruence.
  set (s1 := updated (next_loc s) (array_from (VStr <$> genre_names)) s).
  assert (genres_intact G s1) as HG1.
  { destruct HG as (g & -> & Hg). exists g. split; [done|].
    unfold s1. simpl. rewrite lookup_insert_ne by congruence. done. }
  assert (st_heap s1 !! l = Some o) as Hl1.
  { unfold s1. simpl. by rewrite lookup_insert_ne. }
  assert (st_heap s ⊆ st_heap s1) as Hsub.
  { unfold s1. simpl. by apply insert_subseteq. }
  exists (next_loc s), (array_from (VStr <$> genre_names)), s1.
  split; [by apply getAllowedGenres_eval|].
  split; [apply lookup_insert_eq|]. split; [done|].
  rewrite elements_array_from, (addMovieGenre_eval _ _ _ _ HG1), Hl1.
  change (to_boolean (VRef l)) with true. cbn [andb].
  assert (v ∈ VStr <$> genre_names ↔ allowed_genre v = true) as Hiff.
  { rewrite allowed_genre_spec, list_elem_of_fmap. split.
    - intros (g & -> & Hin). eauto.
    - intros (g & -> & Hin). eauto. }
  rewrite Hiff. unfold stored. split; [|split].
  - destruct (allowed_genre v); split; try done.
    intros Hs. apply (f_equal snd) in Hs. cbn [snd] in Hs. symmetry in Hs.
    destruct (may_assign _ _ _);
      [by apply logged_not_updated in Hs|by apply logged_not_same in Hs..].
  - intros Hacc. rewrite (may_assign_weaken _ _ _ _ Hsub) by (by rewrite Hacc).
    rewrite Hacc. destruct (allowed_genre v); split; try done.
    intros Hs. apply (f_equal snd) in Hs. cbn [snd] in Hs.
    by apply logged_not_updated in Hs.
  - intros Href. rewrite (may_assign_weaken _ _ _ _ Hsub) by (by rewrite Href).
    rewrite Href. by destruct (allowed_genre v).
Qed.

Lemma getAllowedGenres_lists_accepted_genres_witness :
  ∃ a oa s1,
    getAllowedGenres (VRef 0) toy_state = (Normal (VRef a), s1) ∧
    st_heap s1 !! a = Some oa ∧
    (VStr "Comedy" ∈ elements oa ↔
     addMovieGenre (VRef 0) (VRef 2) (VStr "Comedy") s1
       = (Normal (VRef 2),
          updated 2 (set_named "genre" (VStr "Comedy") toy_story) s1)).
Proof.
  destruct (getAllowedGenres_lists_accepted_genres (VRef 0) toy_state 2
              toy_story (VStr "Comedy") toy_state_genres_intact eq_refl)
    as (a & oa & s1 & Hcall & Ha & _ & _ & Hin & _).
  exists a, oa, s1. split; [done|]. split; [done|]. by apply Hin.
Defined.
